(** * BlinkDB: the storage engine and the RESP-2 server

    A shallow embedding of [Part B/src/blinkdb.cpp] (the LRU-bounded
    key/value engine with its persistence file) and of
    [Part B/src/blink_server.cpp] (the RESP-2 decoder, the command
    dispatcher and the per-read request cycle), followed by the
    properties of both that the specification talks about.

    Conventions.
    - [std::string] is [string]; bytes are [ascii].
    - [size_t] is a [Z] kept in the range of 64 bits by [wrap]; [int] is a
      [Z] in the range of 32 bits.
    - A C++ function that may throw returns an [outcome].
    - The engine object is the record [BlinkDB]; its member functions take
      the record and return the new one.  The requests of the one server
      thread and the rounds of the flush thread are taken one after the
      other; the locks are not modelled. *)

From Stdlib Require Import ZArith Ascii String List Bool Permutation.
From stdpp Require Import gmap strings list fin_maps pretty.

Set Warnings "-clear-no-such-hyp".
Local Open Scope Z_scope.

(** ** Bytes and [std::string] *)

Module Str.

Definition TAB : ascii := Ascii.ascii_of_nat 9.
Definition LF : ascii := Ascii.ascii_of_nat 10.
Definition CR : ascii := Ascii.ascii_of_nat 13.
Definition CRLF : string := String CR (String LF EmptyString).

(** [s.size()] *)
Definition size (s : string) : Z := Z.of_nat (String.length s).

(** [size_t] arithmetic is modulo [2^64]. *)
Definition wrap (z : Z) : Z := z mod 2 ^ 64.

(** [s[i]] for [i < s.size()]; the terminating NUL otherwise. *)
Definition at_ (s : string) (i : Z) : ascii :=
  match String.get (Z.to_nat i) s with
  | Some c => c
  | None => Ascii.zero
  end.

Fixpoint drop (n : nat) (s : string) : string :=
  match n, s with
  | O, _ => s
  | S n', String _ s' => drop n' s'
  | S _, EmptyString => EmptyString
  end.

Fixpoint find_at (pat s : string) (off : Z) : option Z :=
  if String.prefix pat s then Some off
  else match s with
       | EmptyString => None
       | String _ s' => find_at pat s' (off + 1)
       end.

(** [s.find(pat, pos)]: the first position [>= pos] at which [pat]
    starts, [None] for [npos]. *)
Definition find (s pat : string) (pos : Z) : option Z :=
  if size s <? pos then None else find_at pat (drop (Z.to_nat pos) s) pos.

(** [s.substr(pos, count)] where [pos <= s.size()]: at most [count]
    bytes from [pos] on.  ([pos > s.size()] throws in C++; in
    [Resp.decodeCommand] [pos] is either one past a byte that was just
    read or two past a position that [find] returned, which is inside
    the string by [StrFacts.find_bound].) *)
Definition substr (s : string) (pos count : Z) : string :=
  String.substring (Z.to_nat pos) (Z.to_nat (Z.min count (size s - pos))) s.

Definition eqb_char (a b : ascii) : bool := Ascii.eqb a b.

End Str.

(** ** Exceptions *)

Inductive exn : Set :=
| invalid_argument
| out_of_range.

Inductive outcome (A : Type) : Type :=
| Returns (a : A)
| Throws (e : exn).
Arguments Returns {A} a.
Arguments Throws {A} e.

(** Sequencing: an exception of the first computation skips the second. *)
Global Instance outcome_bind : MBind outcome := fun A B f m =>
  match m with
  | Returns a => f a
  | Throws e => Throws e
  end.

Global Instance outcome_ret : MRet outcome := fun A a => Returns a.

Global Instance outcome_fmap : FMap outcome := fun A B f m =>
  match m with
  | Returns a => Returns (f a)
  | Throws e => Throws e
  end.

(** ** [std::stoi] *)

Module Stoi.

Definition INT_MAX : Z := 2147483647.
Definition INT_MIN : Z := -2147483648.

(** [isspace] in the C locale. *)
Definition isspace (c : ascii) : bool :=
  let n := Ascii.nat_of_ascii c in
  (Nat.eqb n 32 || (Nat.leb 9 n && Nat.leb n 13))%bool.

Definition digit (c : ascii) : option Z :=
  let n := Ascii.nat_of_ascii c in
  if (Nat.leb 48 n && Nat.leb n 57)%bool then Some (Z.of_nat n - 48) else None.

Fixpoint skip_space (s : string) : string :=
  match s with
  | String c s' => if isspace c then skip_space s' else s
  | EmptyString => s
  end.

(** The longest run of decimal digits at the head of [s]: its value, or
    [None] when [s] does not start with a digit. *)
Fixpoint digits (s : string) (acc : option Z) : option Z :=
  match s with
  | String c s' =>
      match digit c with
      | Some d => digits s' (Some (10 * default 0 acc + d))
      | None => acc
      end
  | EmptyString => acc
  end.

Definition minus : ascii := Ascii.ascii_of_nat 45.
Definition plus : ascii := Ascii.ascii_of_nat 43.

(** [std::stoi(s)] (base 10): white space, an optional sign, digits;
    what follows the digits is ignored.  No digit: [invalid_argument];
    a value outside [int]: [out_of_range]. *)
Definition stoi (s : string) : outcome Z :=
  let s := skip_space s in
  let '(neg, s) :=
    match s with
    | String c s' =>
        if Ascii.eqb c minus then (true, s')
        else if Ascii.eqb c plus then (false, s')
        else (false, s)
    | EmptyString => (false, s)
    end in
  match digits s None with
  | None => Throws invalid_argument
  | Some v =>
      let v := if neg then - v else v in
      if ((INT_MIN <=? v) && (v <=? INT_MAX))%bool then Returns v
      else Throws out_of_range
  end.

End Stoi.

(** ** The RESP-2 codec: [decodeCommand] and the four encoders *)

Module Resp.
Import Str.

Definition star : ascii := Ascii.ascii_of_nat 42.
Definition dollar : ascii := Ascii.ascii_of_nat 36.

(** The body of [for (int i = 0; i < arg_count; i++)], by recursion on
    the number of iterations that remain.  [index + len] and
    [index += len + 2] convert the [int] to [size_t] and wrap; [len + 2]
    itself stays an [int], since the line before it has returned unless
    [index + len <= raw_input.size()]. *)
Fixpoint decode_args (raw_input : string) (remaining : nat) (index : Z)
    (parsed_command : list string) : outcome (list string) :=
  match remaining with
  | O => Returns parsed_command
  | S remaining' =>
      if ((size raw_input <=? index)
          || negb (eqb_char (at_ raw_input index) dollar))%bool
      then Returns parsed_command
      else
        let index := wrap (index + 1) in
        match find raw_input CRLF index with
        | None => Returns parsed_command
        | Some next =>
            len ← Stoi.stoi (substr raw_input index (next - index));
            let index := wrap (next + 2) in
            if size raw_input <? wrap (index + len)
            then Returns parsed_command
            else
              decode_args raw_input remaining' (wrap (index + (len + 2)))
                (parsed_command ++ [substr raw_input index (wrap len)])
        end
  end.

Definition decodeCommand (raw_input : string) : outcome (list string) :=
  let parsed_command : list string := [] in
  let index := 0 in
  if (String.eqb raw_input EmptyString
      || negb (eqb_char (at_ raw_input index) star))%bool
  then Returns parsed_command
  else
    let index := index + 1 in
    match find raw_input CRLF index with
    | None => Returns parsed_command
    | Some next =>
        arg_count ← Stoi.stoi (substr raw_input index (next - index));
        let index := next + 2 in
        decode_args raw_input (Z.to_nat arg_count) index parsed_command
    end.

Definition encodeSimpleString (msg : string) : string :=
  "+" +:+ msg +:+ CRLF.

Definition encodeBulkString (msg : string) : string :=
  if String.eqb msg EmptyString then "$-1" +:+ CRLF
  else "$" +:+ pretty (String.length msg) +:+ CRLF +:+ msg +:+ CRLF.

Definition encodeInteger (value : Z) : string :=
  ":" +:+ pretty value +:+ CRLF.

Definition encodeError (msg : string) : string :=
  "-ERR " +:+ msg +:+ CRLF.

End Resp.

(** ** The persistence file: [key TAB value LF] records *)

Module Log.
Import Str.

(** What [out << key << "\t" << value << "\n"] writes for each record. *)
Fixpoint write_records (l : list (string * string)) : string :=
  match l with
  | [] => EmptyString
  | (key, value) :: l' =>
      key +:+ String TAB (value +:+ String LF (write_records l'))
  end.

(** [std::getline(in, str, delim)] on the bytes that remain in the
    stream: [None] when nothing at all can be extracted (end of file),
    else the bytes before the first [delim] and what remains after it
    (the delimiter is consumed; without a delimiter the line runs to the
    end of the file). *)
Fixpoint split_at (delim : ascii) (s : string) : string * string :=
  match s with
  | EmptyString => (EmptyString, EmptyString)
  | String c s' =>
      if Ascii.eqb c delim then (EmptyString, s')
      else let '(line, rest) := split_at delim s' in (String c line, rest)
  end.

Definition getline (s : string) (delim : ascii) : option (string * string) :=
  match s with
  | EmptyString => None
  | _ => Some (split_at delim s)
  end.

(** The sequence of pairs that the loop
    [while (getline(in, key, '\t') && getline(in, value))] goes through,
    as a reader of the file byte by byte: [read_key] collects a key up to
    a tab, [read_value] a value up to a newline.  [records_getline] below
    shows that this is the loop over [getline]. *)
Fixpoint read_key (s : string) (key : string) : list (string * string) :=
  match s with
  | EmptyString => []
  | String c s' =>
      if Ascii.eqb c TAB then read_value key s' EmptyString
      else read_key s' (key +:+ String c EmptyString)
  end
with read_value (key : string) (s : string) (value : string)
    : list (string * string) :=
  match s with
  | EmptyString =>
      if String.eqb value EmptyString then [] else [(key, value)]
  | String c s' =>
      if Ascii.eqb c LF then (key, value) :: read_key s' EmptyString
      else read_value key s' (value +:+ String c EmptyString)
  end.

Definition records (content : string) : list (string * string) :=
  read_key content EmptyString.

(** The first record of the file whose key is [key]. *)
Fixpoint first_match (key : string) (l : list (string * string))
    : option string :=
  match l with
  | [] => None
  | (line_key, value) :: l' =>
      if String.eqb line_key key then Some value else first_match key l'
  end.

(** A look-up in the file; [None] also when the file cannot be opened. *)
Definition lookup (key : string) (file : option string) : option string :=
  match file with
  | None => None
  | Some content => first_match key (records content)
  end.

(** A byte that does not occur in a string. *)
Fixpoint free_of (c : ascii) (s : string) : bool :=
  match s with
  | EmptyString => true
  | String x s' => negb (Ascii.eqb x c) && free_of c s'
  end.

(** A record that the file format can hold: no tab in the key, no
    newline in the value. *)
Definition representable (kv : string * string) : Prop :=
  free_of TAB kv.1 = true /\ free_of LF kv.2 = true.

End Log.

(** ** The storage engine *)

Module Engine.
Import Str.

(** [#define MAX_CAPACITY 10000] *)
Definition MAX_CAPACITY : nat := 100 * 100.

(** The members of [class BlinkDB], and the file it persists to.

    [lru_map] maps a key to an iterator into [lru_keys].  Every iterator
    that the code stores is [lru_keys.begin()] right after
    [push_front(key)], and every removal of a node for [key] (by [erase]
    or by [pop_back]) erases the entry of [key]: the iterator stored for
    [key] always denotes the occurrence of [key] nearest to the front.
    So [lru_map] is kept as the set of keys that have an entry, and
    [lru_keys.erase(lru_map[key])] is [erase_first key].  [LruList] has
    the list with its nodes and the map with its iterators, and
    [LruListFacts] the proof of what is said here.

    [evicted_keys] only ever holds [true].

    [file] is the content of [persistence_file] ("flush_data.txt") on
    disk, [None] when there is no such file. *)
Record BlinkDB : Type := mkBlinkDB {
  store : gmap string string;
  lru_keys : list string;
  lru_map : gset string;
  evicted_keys : gmap string bool;
  dirty : bool;
  file : option string
}.

Definition with_store (f : gmap string string -> gmap string string)
    (db : BlinkDB) : BlinkDB :=
  mkBlinkDB (f (store db)) (lru_keys db) (lru_map db) (evicted_keys db)
    (dirty db) (file db).

Definition with_lru_keys (f : list string -> list string)
    (db : BlinkDB) : BlinkDB :=
  mkBlinkDB (store db) (f (lru_keys db)) (lru_map db) (evicted_keys db)
    (dirty db) (file db).

Definition with_lru_map (f : gset string -> gset string)
    (db : BlinkDB) : BlinkDB :=
  mkBlinkDB (store db) (lru_keys db) (f (lru_map db)) (evicted_keys db)
    (dirty db) (file db).

Definition with_evicted_keys (f : gmap string bool -> gmap string bool)
    (db : BlinkDB) : BlinkDB :=
  mkBlinkDB (store db) (lru_keys db) (lru_map db) (f (evicted_keys db))
    (dirty db) (file db).

Definition with_dirty (b : bool) (db : BlinkDB) : BlinkDB :=
  mkBlinkDB (store db) (lru_keys db) (lru_map db) (evicted_keys db)
    b (file db).

Definition with_file (f : option string) (db : BlinkDB) : BlinkDB :=
  mkBlinkDB (store db) (lru_keys db) (lru_map db) (evicted_keys db)
    (dirty db) f.

(** The engine before [loadFromFile], next to a disk that holds [f]. *)
Definition members_init (f : option string) : BlinkDB :=
  mkBlinkDB ∅ [] ∅ ∅ false f.

Fixpoint erase_first (key : string) (l : list string) : list string :=
  match l with
  | [] => []
  | x :: l' => if decide (x = key) then l' else x :: erase_first key l'
  end.

(** [lru_keys.push_front(key); lru_map[key] = lru_keys.begin();] *)
Definition push_front (key : string) (db : BlinkDB) : BlinkDB :=
  with_lru_map (fun m => {[key]} ∪ m) (with_lru_keys (cons key) db).

(** [if (lru_map.find(key) != lru_map.end())
      { lru_keys.erase(lru_map[key]); lru_map.erase(key); }] *)
Definition unlink (key : string) (db : BlinkDB) : BlinkDB :=
  if decide (key ∈ lru_map db)
  then with_lru_map (fun m => m ∖ {[key]})
         (with_lru_keys (erase_first key) db)
  else db.

(** What the outcome of opening and writing the file can be: all bytes
    written, the file not opened at all (it is left as it was), or the
    stream failing after [n] bytes. *)
Inductive io : Set :=
| IoOk
| IoOpenFails
| IoWriteFails (n : nat).

Section Engine.

(** The capacity ([max_cache_size], [MAX_CAPACITY] in the build). *)
Variable max_cache_size : nat.

(** The order in which a range-for enumerates [store].  C++ leaves the
    order of an [unordered_map] unspecified; it only promises every
    element once. *)
Variable iteration : gmap string string -> list (string * string).

Definition updateLRU (key : string) (db : BlinkDB) : BlinkDB :=
  let db := unlink key db in
  let db := push_front key db in
  if decide (max_cache_size < length (lru_keys db))%nat then
    let evict_key := List.last (lru_keys db) key in
    let db :=
      if decide (is_Some (store db !! evict_key))
      then with_evicted_keys (insert evict_key true) db
      else db in
    let db := with_store (delete evict_key) db in
    let db := with_lru_map (fun m => m ∖ {[evict_key]}) db in
    let db := with_lru_keys (@List.removelast string) db in
    with_dirty true db
  else db.

Definition set (key value : string) (db : BlinkDB) : BlinkDB :=
  let db := updateLRU key db in
  let db := with_store (insert key value) db in
  with_dirty true db.

Definition restoreFromDisk (key : string) (db : BlinkDB) : BlinkDB :=
  match Log.lookup key (file db) with
  | Some value =>
      let db := with_store (insert key value) db in
      let db := push_front key db in
      with_evicted_keys (delete key) db
  | None => db
  end.

(** [get] returns [it->second] after [updateLRU(key)].  [updateLRU] never
    changes the value of an entry of [store], and erases only the entry
    of the key it evicts, so [it] still denotes the entry of [key] with
    the value found by [store.find(key)] unless the key evicted is [key]
    itself; [LruFacts.updateLRU_keeps] shows that this does not happen in
    a well-formed engine. *)
Definition get (key : string) (db : BlinkDB) : string * BlinkDB :=
  match store db !! key with
  | Some value => (value, updateLRU key db)
  | None =>
      if decide (is_Some (evicted_keys db !! key)) then
        let db := restoreFromDisk key db in
        match store db !! key with
        | Some value => (value, updateLRU key db)
        | None => ("NULL", db)
        end
      else ("NULL", db)
  end.

Definition del (key : string) (db : BlinkDB) : bool * BlinkDB :=
  match store db !! key with
  | None => (false, db)
  | Some _ =>
      let db := unlink key db in
      let db := with_store (delete key) db in
      (true, with_dirty true db)
  end.

Definition persistToFile (o : io) (db : BlinkDB) : BlinkDB :=
  let bytes := Log.write_records (iteration (store db)) in
  let db :=
    match o with
    | IoOk => with_file (Some bytes) db
    | IoOpenFails => db
    | IoWriteFails n => with_file (Some (String.substring 0 n bytes)) db
    end in
  with_dirty false db.

(** One round of the loop of [flushToDiskPeriodically], after the sleep. *)
Definition flush_tick (o : io) (db : BlinkDB) : BlinkDB :=
  if dirty db then persistToFile o db else db.

(** The body of the loop of [loadFromFile]. *)
Definition load_record (db : BlinkDB) (kv : string * string) : BlinkDB :=
  push_front kv.1 (with_store (insert kv.1 kv.2) db).

Definition loadFromFile (db : BlinkDB) : BlinkDB :=
  match file db with
  | Some content => fold_left load_record (Log.records content) db
  | None => db
  end.

(** The constructor, next to a disk that holds [f]. *)
Definition new (f : option string) : BlinkDB := loadFromFile (members_init f).

(** The requests that reach the engine, and the timer of the flush
    thread. *)
Inductive request : Type :=
| SET (key value : string)
| GET (key : string)
| DEL (key : string)
| TICK (o : io).

Definition step (db : BlinkDB) (r : request) : BlinkDB :=
  match r with
  | SET key value => set key value db
  | GET key => snd (get key db)
  | DEL key => snd (del key db)
  | TICK o => flush_tick o db
  end.

Definition run (rs : list request) (db : BlinkDB) : BlinkDB :=
  fold_left step rs db.

(** The shape of the LRU members in every engine that was constructed
    from a loadable file (see [LruFacts.wf_new] and [LruFacts.wf_run]):
    [lru_keys] has no key twice and at most [max_cache_size] keys,
    [lru_map] has an entry for exactly these keys, and they are the keys
    of [store]. *)
Definition lru_ok (db : BlinkDB) : Prop :=
  NoDup (lru_keys db)
  /\ lru_map db = list_to_set (lru_keys db)
  /\ (length (lru_keys db) <= max_cache_size)%nat.

Definition wf (db : BlinkDB) : Prop :=
  lru_ok db /\ dom (store db) = lru_map db.

(** The files from which the constructor builds a well-formed engine: no
    file at all, or one whose records have distinct keys and are no more
    than the engine holds ([loadFromFile] neither looks for a key it has
    seen nor evicts). *)
Definition loadable (f : option string) : Prop :=
  match f with
  | None => True
  | Some content =>
      NoDup (Log.records content).*1
      /\ (length (Log.records content) <= max_cache_size)%nat
  end.

End Engine.

End Engine.

(** ** The LRU list with its nodes

    [lru_keys] and [lru_map] as the C++ has them: a [std::list] whose
    nodes have an identity (their address), and a map from keys to
    iterators, that is to nodes.  [Engine] keeps the keys of the list and
    the keys of the map only; [LruListFacts] shows that the three things
    the code does to the pair are, on the keys, what [Engine] does. *)

Module LruList.

Record lru : Type := mkLru {
  nodes : list (nat * string);
  iters : gmap string nat;
  next_node : nat
}.

Definition empty : lru := mkLru [] ∅ O.

(** What [Engine] keeps of the pair. *)
Definition keys (l : lru) : list string := (nodes l).*2.
Definition entries (l : lru) : gset string := dom (iters l).

(** [lru_keys.push_front(key); lru_map[key] = lru_keys.begin();] *)
Definition push_front (key : string) (l : lru) : lru :=
  mkLru ((next_node l, key) :: nodes l) (<[key:=next_node l]> (iters l))
    (S (next_node l)).

(** [lru_keys.erase(it)] *)
Fixpoint erase (it : nat) (ns : list (nat * string)) : list (nat * string) :=
  match ns with
  | [] => []
  | n :: ns' => if decide (n.1 = it) then ns' else n :: erase it ns'
  end.

(** [if (lru_map.find(key) != lru_map.end())
      { lru_keys.erase(lru_map[key]); lru_map.erase(key); }] *)
Definition unlink (key : string) (l : lru) : lru :=
  match iters l !! key with
  | Some it => mkLru (erase it (nodes l)) (delete key (iters l)) (next_node l)
  | None => l
  end.

(** [evict_key = lru_keys.back(); lru_map.erase(evict_key);
     lru_keys.pop_back();] for a list that is not empty; [d] stands for
    the key at the back of an empty one. *)
Definition pop_back (d : string) (l : lru) : lru :=
  mkLru (List.removelast (nodes l))
    (delete (List.last (keys l) d) (iters l)) (next_node l).

(** The node nearest to the front that holds [key]. *)
Fixpoint first_node (key : string) (ns : list (nat * string)) : option nat :=
  match ns with
  | [] => None
  | n :: ns' => if decide (n.2 = key) then Some n.1 else first_node key ns'
  end.

(** Nodes are distinct and older than [next_node], and every iterator in
    the map points to the first node of its key. *)
Definition sound (l : lru) : Prop :=
  NoDup (nodes l).*1
  /\ Forall (fun n => (n.1 < next_node l)%nat) (nodes l)
  /\ forall key it, iters l !! key = Some it ->
                    first_node key (nodes l) = Some it.

End LruList.

(** ** The server: dispatch and one request cycle *)

Module Server.
Import Str Resp.

(** [::toupper] in the C locale. *)
Definition toupper (c : ascii) : ascii :=
  let n := Ascii.nat_of_ascii c in
  if (Nat.leb 97 n && Nat.leb n 122)%bool then Ascii.ascii_of_nat (n - 32)
  else c.

Fixpoint upper (s : string) : string :=
  match s with
  | EmptyString => EmptyString
  | String c s' => String (toupper c) (upper s')
  end.

(** [sizeof(buffer)] in [handleClientRead]: the most bytes that one
    [read] hands to the decoder. *)
Definition BUFFER_SIZE : Z := 1024.

(** [args[i]] *)
Definition arg (args : list string) (i : nat) : string :=
  nth i args EmptyString.

Section Server.

Variable max_cache_size : nat.

Definition processSet (args : list string) (database : Engine.BlinkDB)
    : string * Engine.BlinkDB :=
  (encodeSimpleString "OK",
   Engine.set max_cache_size (arg args 1) (arg args 2) database).

Definition processGet (args : list string) (database : Engine.BlinkDB)
    : string * Engine.BlinkDB :=
  let '(value, database) := Engine.get max_cache_size (arg args 1) database in
  (if String.eqb value "NULL" then encodeBulkString EmptyString
   else encodeBulkString value,
   database).

Definition processDel (args : list string) (database : Engine.BlinkDB)
    : string * Engine.BlinkDB :=
  let '(deleted, database) := Engine.del (arg args 1) database in
  (encodeInteger (if deleted then 1 else 0), database).

Definition handleCommand (command : list string) (database : Engine.BlinkDB)
    : string * Engine.BlinkDB :=
  match command with
  | [] => (encodeError "Empty command", database)
  | c0 :: _ =>
      let cmd := upper c0 in
      if (String.eqb cmd "SET" && Nat.eqb (length command) 3)%bool
      then processSet command database
      else if (String.eqb cmd "GET" && Nat.eqb (length command) 2)%bool
      then processGet command database
      else if (String.eqb cmd "DEL" && Nat.eqb (length command) 2)%bool
      then processDel command database
      else if String.eqb cmd "CONFIG" then ("*0" +:+ CRLF, database)
      else (encodeError "Unknown command", database)
  end.

(** [handleClientRead] once [read] has returned the bytes [raw_input]
    ([bytes_read > 0]): the reply written to the client and the engine
    afterwards, or the exception that leaves the function. *)
Definition handleClientRead (raw_input : string) (database : Engine.BlinkDB)
    : outcome (string * Engine.BlinkDB) :=
  command ← decodeCommand raw_input;
  match command with
  | [] => Returns (encodeError "Invalid Command", database)
  | _ => Returns (handleCommand command database)
  end.

End Server.

End Server.

(** ** Scenarios *)

Module Scenario.
Import Engine.

(** [SET k1 v1; SET k2 v2; ...] *)
Definition sets (kvs : list (string * string)) : list request :=
  map (fun kv => SET kv.1 kv.2) kvs.

(** The engine that holds exactly the pairs [kvs], the last one touched
    last, with the eviction markers [ev]. *)
Definition filled (kvs : list (string * string)) (ev : gmap string bool)
    (d : bool) (f : option string) : BlinkDB :=
  mkBlinkDB (list_to_map kvs) (reverse kvs.*1) (list_to_set kvs.*1) ev d f.

(** Distinct keys that the file format can hold: [nth_key i] is
    [i + 1] times the byte [k]. *)
Fixpoint nth_key (i : nat) : string :=
  match i with
  | O => "k"
  | S i' => String "k" (nth_key i')
  end.

Definition pair_of (i : nat) : string * string := (nth_key i, "v").

(** As many pairs as the engine holds ([n + 1] of them), and one more. *)
Definition load (n : nat) : list (string * string) :=
  pair_of 0 :: map pair_of (seq 1 n).

Definition one_more (n : nat) : string * string := pair_of (S n).

Definition full_load : list (string * string) := load (pred MAX_CAPACITY).
Definition overflow_pair : string * string := one_more (pred MAX_CAPACITY).

(** A value with newlines in it: the bytes that [persistToFile] writes
    for the one pair [(key, packed value rest last)] are the bytes of
    the records [(key, value) :: rest ++ [last]]. *)
Definition packed (value : string) (rest : list (string * string))
    (last : string * string) : string :=
  value
  +:+ String Str.LF
        (Log.write_records rest +:+ (last.1 +:+ String Str.TAB last.2)).

(** The value that stands for [full_load ++ [overflow_pair]] after the
    key [nth_key 0]. *)
Definition overfull_value : string :=
  packed "v" (map pair_of (seq 1 (pred MAX_CAPACITY))) overflow_pair.

(** A request as a client sends it: an array of bulk strings. *)
Definition bulk (s : string) : string :=
  "$" +:+ pretty (String.length s) +:+ Str.CRLF +:+ s +:+ Str.CRLF.

Definition request_of (args : list string) : string :=
  "*" +:+ pretty (length args) +:+ Str.CRLF
  +:+ fold_right (fun a r => bulk a +:+ r) EmptyString args.

(** The bulk strings of a request, one after the other. *)
Definition bulks (args : list string) : string :=
  fold_right (fun a r => bulk a +:+ r) EmptyString args.

(** The replies to a sequence of reads on one connection, and the engine
    afterwards. *)
Fixpoint serve (max_cache_size : nat) (inputs : list string)
    (database : BlinkDB) : outcome (list string * BlinkDB) :=
  match inputs with
  | [] => Returns ([], database)
  | raw_input :: inputs' =>
      '(reply, database) ←
        Server.handleClientRead max_cache_size raw_input database;
      '(replies, database) ← serve max_cache_size inputs' database;
      Returns (reply :: replies, database)
  end.

End Scenario.

(** ** The rest of the engine's life: shutdown, removal of the file *)

Module Lifecycle.
Import Engine.

Section Lifecycle.

Variable iteration : gmap string string -> list (string * string).

(** [~BlinkDB]: [if (dirty) persistToFile();] *)
Definition destructor (o : io) (db : BlinkDB) : BlinkDB :=
  if dirty db then persistToFile iteration o db else db.

(** [flushToDiskAsync]: [persistToFile] on another thread, waited for. *)
Definition flushToDiskAsync (o : io) (db : BlinkDB) : BlinkDB :=
  persistToFile iteration o db.

End Lifecycle.

(** [clearPersistenceFile]: [std::remove(persistence_file.c_str())]. *)
Definition clearPersistenceFile (db : BlinkDB) : BlinkDB := with_file None db.



End Lifecycle.

(** ** The load balancer: which backend a connection goes to

    [load_balancer.cpp], as far as the choice of the backend goes; the
    sockets and the forwarding of bytes are left out. *)

Module Balancer.

Inductive backend : Set :=
| Server1
| Server2.

(** [current_server], the only member that changes. *)
Record LoadBalancer : Type := mkLoadBalancer {
  current_server : Z
}.

(** The constructor: [current_server(0)]. *)
Definition new : LoadBalancer := mkLoadBalancer 0.

(** [connectToBackend]: the backend it picks, whether or not the
    connection to it then succeeds, and the balancer afterwards. *)
Definition connectToBackend (lb : LoadBalancer) : backend * LoadBalancer :=
  if current_server lb =? 0 then (Server1, mkLoadBalancer 1)
  else (Server2, mkLoadBalancer 0).

(** [n] calls of [connectToBackend] in one process. *)
Fixpoint connect_times (n : nat) (lb : LoadBalancer)
    : list backend * LoadBalancer :=
  match n with
  | O => ([], lb)
  | S n' =>
      let '(b, lb) := connectToBackend lb in
      let '(bs, lb) := connect_times n' lb in
      (b :: bs, lb)
  end.

(** One accepted connection in [start]: [fork()], and the child calls
    [handleClient], which calls [connectToBackend] on the child's copy of
    the balancer; the parent goes on with its own, which the child does
    not touch. *)
Definition accept_one (lb : LoadBalancer) : backend * LoadBalancer :=
  let child := lb in
  ((connectToBackend child).1, lb).

(** The backends of [n] connections accepted one after the other. *)
Fixpoint accept_times (n : nat) (lb : LoadBalancer)
    : list backend * LoadBalancer :=
  match n with
  | O => ([], lb)
  | S n' =>
      let '(b, lb) := accept_one lb in
      let '(bs, lb) := accept_times n' lb in
      (b :: bs, lb)
  end.

(** Round robin, to compare [connectToBackend] with: the backend of the
    call number [i] (from 0) when the first call finds
    [current_server == 0], and the balancer after [i] calls. *)
Definition pick (i : nat) : backend :=
  if Nat.even i then Server1 else Server2.

Definition after (i : nat) : LoadBalancer :=
  mkLoadBalancer (if Nat.even i then 0 else 1).

End Balancer.

(** * Properties *)

(** ** Strings: where [find] finds *)

Module StrFacts.
Import Str.

Lemma prefix_length (a b : string) :
  String.prefix a b = true -> (String.length a <= String.length b)%nat.
Proof.
  revert b. induction a as [|c a IH]; intros b; simpl; [lia|].
  destruct b as [|c' b]; simpl; [done|].
  destruct (Ascii.ascii_dec c c'); [|done].
  intros H. apply IH in H. lia.
Qed.

Lemma length_drop (n : nat) (s : string) :
  String.length (drop n s) = (String.length s - n)%nat.
Proof.
  revert s. induction n as [|n IH]; intros s; simpl; [lia|].
  destruct s; simpl; [done | apply IH].
Qed.

Lemma find_at_bound (pat s : string) (off next : Z) :
  find_at pat s off = Some next ->
  off <= next /\ next + size pat <= off + size s.
Proof.
  revert off. induction s as [|c s IH]; intros off; cbn [find_at].
  - destruct (String.prefix pat EmptyString) eqn:Hp; [|done].
    intros [= <-]. apply prefix_length in Hp. unfold size. simpl in *. lia.
  - destruct (String.prefix pat (String c s)) eqn:Hp.
    + intros [= <-]. apply prefix_length in Hp. unfold size. simpl in *. lia.
    + intros H. apply IH in H. unfold size in *. simpl String.length. lia.
Qed.

(** A position that [find] returns is at or after the start and leaves
    room for the pattern: [substr] is called in [decodeCommand] with a
    position inside the string, where it does not throw. *)
Lemma find_bound (s : string) (pos next : Z) :
  0 <= pos ->
  find s CRLF pos = Some next ->
  pos <= next /\ next + 2 <= size s.
Proof.
  intros Hpos. unfold find. destruct (size s <? pos) eqn:Hlt; [done|].
  apply Z.ltb_ge in Hlt. intros H. apply find_at_bound in H.
  unfold size in *. rewrite length_drop in H. simpl in H. lia.
Qed.

End StrFacts.

(** ** The persistence file *)

Module LogFacts.
Import Str Log.

Lemma append_cons (c : ascii) (a b : string) :
  String c a +:+ b = String c (a +:+ b).
Proof. reflexivity. Qed.

Lemma append_nil_l (b : string) : EmptyString +:+ b = b.
Proof. reflexivity. Qed.

Lemma append_nil_r (s : string) : s +:+ EmptyString = s.
Proof.
  induction s as [|c s IH]; [done|]. by rewrite append_cons, IH.
Qed.

Lemma append_snoc (a b : string) (c : ascii) :
  (a +:+ String c EmptyString) +:+ b = a +:+ String c b.
Proof.
  induction a as [|x a IH]; [done|]. by rewrite !append_cons, IH.
Qed.

Lemma append_assoc (a b c : string) : (a +:+ b) +:+ c = a +:+ (b +:+ c).
Proof.
  induction a as [|x a IH]; [done|]. by rewrite !append_cons, IH.
Qed.

Lemma read_key_split (s key : string) :
  read_key s key
  = read_value (key +:+ (split_at TAB s).1) (split_at TAB s).2 EmptyString.
Proof.
  revert key. induction s as [|c s IH]; intros key; simpl.
  - done.
  - destruct (Ascii.eqb c TAB) eqn:E; simpl.
    + by rewrite append_nil_r.
    + rewrite IH. destruct (split_at TAB s) as [line rest]; simpl.
      by rewrite append_snoc.
Qed.

Lemma read_value_split (s key value : string) :
  s <> EmptyString ->
  read_value key s value
  = (key, value +:+ (split_at LF s).1) :: records (split_at LF s).2.
Proof.
  revert value. induction s as [|c s IH]; intros value Hs; [done|]. simpl.
  destruct (Ascii.eqb c LF) eqn:E; simpl.
  - by rewrite append_nil_r.
  - destruct s as [|c' s'].
    + simpl.
      destruct (String.eqb_spec (value +:+ String c EmptyString) EmptyString)
        as [Habs|_]; [|done].
      by destruct value.
    + rewrite IH by done.
      destruct (split_at LF (String c' s')) as [line rest]; simpl.
      by rewrite append_snoc.
Qed.

(** The byte-by-byte reader is the source's loop over [getline]. *)
Lemma records_getline (content : string) :
  records content
  = match getline content TAB with
    | None => []
    | Some (line_key, rest) =>
        match getline rest LF with
        | None => []
        | Some (value, rest') => (line_key, value) :: records rest'
        end
    end.
Proof.
  unfold records at 1. destruct content as [|c s]; [done|].
  rewrite read_key_split. unfold getline at 1.
  destruct (split_at TAB (String c s)) as [line_key rest]; simpl fst; simpl snd.
  rewrite append_nil_l.
  destruct rest as [|c' rest]; [done|].
  rewrite read_value_split by done. unfold getline.
  rewrite append_nil_l.
  by destruct (split_at LF (String c' rest)).
Qed.

Lemma read_key_tab (k rest key : string) :
  free_of TAB k = true ->
  read_key (k +:+ String TAB rest) key = read_value (key +:+ k) rest EmptyString.
Proof.
  revert key. induction k as [|c k IH]; intros key Hk.
  - rewrite append_nil_l, append_nil_r. reflexivity.
  - simpl in Hk. apply andb_true_iff in Hk as [Hc Hk]. apply negb_true_iff in Hc.
    rewrite append_cons. simpl. rewrite Hc, IH by done. by rewrite append_snoc.
Qed.

Lemma read_value_lf (v rest key value : string) :
  free_of LF v = true ->
  read_value key (v +:+ String LF rest) value
  = (key, value +:+ v) :: records rest.
Proof.
  revert value. induction v as [|c v IH]; intros value Hv.
  - rewrite append_nil_l, append_nil_r. reflexivity.
  - simpl in Hv. apply andb_true_iff in Hv as [Hc Hv]. apply negb_true_iff in Hc.
    rewrite append_cons. simpl. rewrite Hc, IH by done. by rewrite append_snoc.
Qed.

(** Reading back what was written gives the records written, as long as
    the format can hold them. *)
Lemma records_write_records (l : list (string * string)) :
  Forall representable l -> records (write_records l) = l.
Proof.
  induction 1 as [|[k v] l [Hk Hv] _ IH]; [done|]. simpl in *.
  unfold records. rewrite read_key_tab by done.
  rewrite read_value_lf by done. rewrite !append_nil_l. by rewrite IH.
Qed.

Lemma first_match_None (key : string) (l : list (string * string)) :
  key ∉ l.*1 -> first_match key l = None.
Proof.
  induction l as [|[k v] l IH]; [done|]. simpl. intros Hn.
  apply not_elem_of_cons in Hn as [Hne Hn].
  destruct (String.eqb_spec k key); [congruence | auto].
Qed.

Lemma first_match_Some (key value : string) (l : list (string * string)) :
  NoDup l.*1 -> (key, value) ∈ l -> first_match key l = Some value.
Proof.
  induction l as [|[k v] l IH]; simpl; intros Hnd Hin.
  - by apply elem_of_nil in Hin.
  - apply NoDup_cons in Hnd as [Hk Hnd].
    apply elem_of_cons in Hin as [Heq|Hin].
    + injection Heq as -> ->. by rewrite String.eqb_refl.
    + destruct (String.eqb_spec k key) as [->|Hne]; [|auto].
      exfalso. apply Hk. apply list_elem_of_fmap. by exists (key, value).
Qed.

(** A look-up among the entries of a map, in whatever order they were
    enumerated, is the look-up in the map. *)
Lemma first_match_map (order : list (string * string))
    (m : gmap string string) (key : string) :
  order ≡ₚ map_to_list m -> first_match key order = m !! key.
Proof.
  intros Hp. destruct (m !! key) as [value|] eqn:E.
  - apply first_match_Some.
    + rewrite Hp. apply NoDup_fst_map_to_list.
    + rewrite Hp. by apply elem_of_map_to_list.
  - apply first_match_None. rewrite Hp. intros Hin.
    apply list_elem_of_fmap in Hin as [[k v] [-> Hin]].
    apply elem_of_map_to_list in Hin. simpl in *. congruence.
Qed.

End LogFacts.

(** ** The engine: the LRU members *)

Module LruFacts.
Import Engine.
Local Close Scope Z_scope.

Lemma erase_first_absent (key : string) (l : list string) :
  key ∉ l -> erase_first key l = l.
Proof.
  induction l as [|x l IH]; [done|]. intros Hn. simpl.
  apply not_elem_of_cons in Hn as [Hne Hn].
  destruct (decide (x = key)); [congruence|]. by rewrite IH.
Qed.

Lemma elem_of_erase_first (key x : string) (l : list string) :
  NoDup l -> x ∈ erase_first key l <-> x ∈ l /\ x <> key.
Proof.
  induction 1 as [|y l Hy Hnd IH]; simpl.
  - set_solver.
  - destruct (decide (y = key)) as [->|Hne].
    + rewrite elem_of_cons. split; [|naive_solver].
      intros Hx. split; [by right|]. by intros ->.
    + rewrite !elem_of_cons, IH. naive_solver.
Qed.

Lemma erase_first_NoDup (key : string) (l : list string) :
  NoDup l -> NoDup (erase_first key l).
Proof.
  induction 1 as [|y l Hy Hnd IH]; simpl; [constructor|].
  destruct (decide (y = key)); [done|]. constructor; [|done].
  rewrite elem_of_erase_first by done. tauto.
Qed.

Lemma length_erase_first (key : string) (l : list string) :
  length (erase_first key l) <= length l.
Proof.
  induction l as [|x l IH]; simpl; [lia|].
  destruct (decide (x = key)); simpl; lia.
Qed.

Lemma erase_first_perm (key : string) (l : list string) :
  key ∈ l -> key :: erase_first key l ≡ₚ l.
Proof.
  induction l as [|x l IH]; simpl; intros Hin.
  - by apply elem_of_nil in Hin.
  - destruct (decide (x = key)) as [->|Hne]; [done|].
    apply elem_of_cons in Hin as [->|Hin]; [done|].
    rewrite <- (IH Hin) at 2. apply perm_swap.
Qed.

Lemma length_erase_first_present (key : string) (l : list string) :
  key ∈ l -> S (length (erase_first key l)) = length l.
Proof.
  induction l as [|x l IH]; simpl; intros Hin.
  - by apply elem_of_nil in Hin.
  - destruct (decide (x = key)) as [->|Hne]; [done|].
    apply elem_of_cons in Hin as [->|Hin]; [done|]. simpl. by rewrite IH.
Qed.

Lemma union_difference_same (key : string) (m : gset string) :
  {[key]} ∪ m ∖ {[key]} = {[key]} ∪ m.
Proof.
  apply set_eq. intros x. destruct (decide (x = key)); set_solver.
Qed.

Lemma last_snoc (key e : string) (l : list string) :
  List.last (key :: l ++ [e]) key = e.
Proof. change (key :: l ++ [e]) with ((key :: l) ++ [e]). apply last_last. Qed.

Lemma removelast_snoc (key e : string) (l : list string) :
  List.removelast (key :: l ++ [e]) = key :: l.
Proof.
  change (key :: l ++ [e]) with ((key :: l) ++ [e]). apply removelast_last.
Qed.

Section Lru.

Variable N : nat.

(** The first two steps of [updateLRU]: the key goes to the front. *)
Lemma unlink_push (key : string) (db : BlinkDB) :
  lru_map db = list_to_set (lru_keys db) ->
  push_front key (unlink key db)
  = mkBlinkDB (store db) (key :: erase_first key (lru_keys db))
      ({[key]} ∪ lru_map db) (evicted_keys db) (dirty db) (file db).
Proof.
  intros Hmap. unfold unlink, push_front.
  destruct (decide (key ∈ lru_map db)) as [Hin|Hin].
  - unfold with_lru_map, with_lru_keys. simpl.
    by rewrite union_difference_same.
  - rewrite erase_first_absent; [done|]. rewrite Hmap in Hin. set_solver.
Qed.

(** [updateLRU] in one piece: the key goes to the front; when that makes
    the list longer than the capacity, the key at the back is evicted. *)
Lemma updateLRU_unfold (key : string) (db : BlinkDB) :
  lru_map db = list_to_set (lru_keys db) ->
  updateLRU N key db
  = let l1 := key :: erase_first key (lru_keys db) in
    let m1 := {[key]} ∪ lru_map db in
    if decide (N < length l1) then
      let e := List.last l1 key in
      mkBlinkDB (delete e (store db)) (List.removelast l1) (m1 ∖ {[e]})
        (if decide (is_Some (store db !! e))
         then <[e:=true]> (evicted_keys db) else evicted_keys db)
        true (file db)
    else
      mkBlinkDB (store db) l1 m1 (evicted_keys db) (dirty db) (file db).
Proof.
  intros Hmap. unfold updateLRU. rewrite (unlink_push key db Hmap).
  cbn [lru_keys store]. cbn zeta.
  destruct (decide (N < length (key :: erase_first key (lru_keys db))));
    [|done].
  destruct (decide (is_Some
    (store db !! List.last (key :: erase_first key (lru_keys db)) key)));
    reflexivity.
Qed.

Hypothesis N_pos : 0 < N.

(** In a well-formed engine an eviction happens only when the list is
    full and the key is new, and the key evicted is another key. *)
Lemma updateLRU_cases (key : string) (db : BlinkDB) :
  lru_ok N db ->
  (length (key :: erase_first key (lru_keys db)) <= N
   /\ updateLRU N key db
      = mkBlinkDB (store db) (key :: erase_first key (lru_keys db))
          ({[key]} ∪ lru_map db) (evicted_keys db) (dirty db) (file db))
  \/ (exists l' e,
        lru_keys db = l' ++ [e] /\ e <> key /\ (key ∉ lru_keys db)
        /\ length (lru_keys db) = N
        /\ updateLRU N key db
           = mkBlinkDB (delete e (store db)) (key :: l')
               (({[key]} ∪ lru_map db) ∖ {[e]})
               (if decide (is_Some (store db !! e))
                then <[e:=true]> (evicted_keys db) else evicted_keys db)
               true (file db)).
Proof.
  intros (Hnd & Hmap & Hlen). rewrite updateLRU_unfold by done. cbn zeta.
  destruct (decide (N < length (key :: erase_first key (lru_keys db))))
    as [Hfull|Hroom]; [right | left; split; [lia | done]].
  assert (key ∉ lru_keys db) as Hnew.
  { intros Hin. apply length_erase_first_present in Hin. simpl in Hfull. lia. }
  rewrite erase_first_absent in * by done. simpl in Hfull.
  remember (lru_keys db) as l0 eqn:El. clear El.
  destruct l0 as [|x l _] using rev_ind; [simpl in *; lia|].
  exists l, x. rewrite last_snoc, removelast_snoc.
  rewrite length_app in *. simpl in *.
  split_and!; [done| |done|lia|done].
  intros ->. apply Hnew. set_solver.
Qed.

Lemma updateLRU_lru_ok (key : string) (db : BlinkDB) :
  lru_ok N db -> lru_ok N (updateLRU N key db).
Proof.
  intros Hok. destruct (updateLRU_cases key db Hok)
    as [[Hlen ->] | (l' & e & Hl & Hne & Hnew & Hlen & ->)];
    destruct Hok as (Hnd & Hmap & Hle); unfold lru_ok; simpl.
  - split_and!; [| |simpl in Hlen; lia].
    + constructor; [|by apply erase_first_NoDup].
      rewrite elem_of_erase_first by done. tauto.
    + rewrite Hmap. apply set_eq. intros x.
      rewrite !elem_of_union, !elem_of_list_to_set.
      rewrite elem_of_erase_first by done.
      destruct (decide (x = key)); set_solver.
  - rewrite Hl in *. rewrite length_app in Hlen. simpl in Hlen.
    apply NoDup_app in Hnd as (Hnd & Hdisj & _).
    split_and!; [| |lia].
    + constructor; [set_solver | done].
    + rewrite Hmap. apply set_eq. intros x.
      rewrite elem_of_difference, !elem_of_union, !elem_of_list_to_set.
      rewrite elem_of_app, !elem_of_singleton.
      split.
      * intros [[->|[Hx|Hx]] Hxe]; [by left | by right |].
        apply list_elem_of_singleton in Hx. done.
      * intros [->|Hx]; [split; [by left | congruence]|].
        split; [right; by left|]. intros ->. by apply (Hdisj e), list_elem_of_singleton.
Qed.

Lemma updateLRU_store (key : string) (db : BlinkDB) :
  lru_ok N db ->
  dom (store db) ∖ {[key]} = lru_map db ∖ {[key]} ->
  dom (store (updateLRU N key db)) ∖ {[key]}
    = lru_map (updateLRU N key db) ∖ {[key]}
  /\ key ∈ lru_map (updateLRU N key db)
  /\ store (updateLRU N key db) !! key = store db !! key.
Proof.
  intros Hok Hdom. destruct (updateLRU_cases key db Hok)
    as [[Hlen ->] | (l' & e & Hl & Hne & Hnew & Hlen & ->)]; simpl.
  - split_and!; [|set_solver|done].
    rewrite Hdom. apply set_eq. intros x.
    destruct (decide (x = key)); set_solver.
  - split_and!; [|set_solver|by rewrite lookup_delete_ne].
    rewrite dom_delete_L. apply set_eq. intros x.
    assert (x ∈ dom (store db) ∖ {[key]} <-> x ∈ lru_map db ∖ {[key]})
      as Hx by (by rewrite Hdom).
    destruct (decide (x = key)); set_solver.
Qed.

(** [it] in [get] stays valid across [updateLRU(key)]. *)
Lemma updateLRU_keeps (key : string) (db : BlinkDB) :
  wf N db -> store (updateLRU N key db) !! key = store db !! key.
Proof.
  intros [Hok Hdom]. apply updateLRU_store; [done | by rewrite Hdom].
Qed.

Lemma wf_updateLRU_resident (key : string) (db : BlinkDB) :
  lru_ok N db ->
  dom (store db) ∖ {[key]} = lru_map db ∖ {[key]} ->
  is_Some (store db !! key) ->
  wf N (updateLRU N key db).
Proof.
  intros Hok Hdom Hres. split; [by apply updateLRU_lru_ok|].
  destruct (updateLRU_store key db Hok Hdom) as (Hd & Hin & Hst).
  rewrite <- Hst in Hres. apply elem_of_dom in Hres.
  apply set_eq. intros x.
  assert (x ∈ dom (store (updateLRU N key db)) ∖ {[key]}
          <-> x ∈ lru_map (updateLRU N key db) ∖ {[key]})
    as Hx by (by rewrite Hd).
  destruct (decide (x = key)) as [->|]; [tauto | set_solver].
Qed.

Lemma wf_set (key value : string) (db : BlinkDB) :
  wf N db -> wf N (set N key value db).
Proof.
  intros [Hok Hdom]. unfold set.
  assert (dom (store db) ∖ {[key]} = lru_map db ∖ {[key]}) as Hd
    by (by rewrite Hdom).
  destruct (updateLRU_store key db Hok Hd) as (Hd' & Hin & _).
  pose proof (updateLRU_lru_ok key db Hok) as Hok'.
  split; [done|]. simpl. rewrite dom_insert_L.
  apply set_eq. intros x.
  assert (x ∈ dom (store (updateLRU N key db)) ∖ {[key]}
          <-> x ∈ lru_map (updateLRU N key db) ∖ {[key]})
    as Hx by (by rewrite Hd').
  destruct (decide (x = key)) as [->|]; set_solver.
Qed.

(** After a restore, [updateLRU] takes the key out of the list and puts
    it back: the list may be one over the capacity in between. *)
Lemma updateLRU_restored (key value : string) (db : BlinkDB) :
  lru_map db = list_to_set (lru_keys db) ->
  key ∉ lru_keys db ->
  Log.lookup key (file db) = Some value ->
  updateLRU N key (restoreFromDisk key db)
  = updateLRU N key
      (with_evicted_keys (delete key) (with_store (insert key value) db)).
Proof.
  intros Hmap Hnew Hhit. unfold restoreFromDisk. rewrite Hhit.
  rewrite !updateLRU_unfold; simpl; [| done | by rewrite Hmap].
  destruct (decide (key = key)); [|done].
  rewrite (erase_first_absent key (lru_keys db)) by done.
  by replace ({[key]} ∪ ({[key]} ∪ lru_map db)) with ({[key]} ∪ lru_map db)
    by set_solver.
Qed.

Lemma wf_get (key : string) (db : BlinkDB) :
  wf N db -> wf N (snd (get N key db)).
Proof.
  intros [Hok Hdom]. unfold get.
  destruct (store db !! key) as [v|] eqn:Hst.
  - simpl. apply wf_updateLRU_resident; [done | by rewrite Hdom | by rewrite Hst].
  - destruct (decide (is_Some (evicted_keys db !! key))); [|done].
    destruct (Log.lookup key (file db)) as [value|] eqn:Hhit.
    + assert (key ∉ lru_keys db) as Hnew.
      { destruct Hok as (_ & Hmap & _). intros Hin.
        apply not_elem_of_dom in Hst. rewrite Hdom, Hmap in Hst. set_solver. }
      assert (store (restoreFromDisk key db) !! key = Some value) as ->.
      { unfold restoreFromDisk. rewrite Hhit. simpl. apply lookup_insert_eq. }
      simpl. rewrite (updateLRU_restored key value) by (done || apply Hok).
      apply wf_updateLRU_resident; simpl.
      * done.
      * rewrite dom_insert_L, Hdom. set_solver.
      * rewrite lookup_insert_eq. eauto.
    + unfold restoreFromDisk. rewrite Hhit, Hst. done.
Qed.

Lemma wf_del (key : string) (db : BlinkDB) :
  wf N db -> wf N (snd (del key db)).
Proof.
  intros [(Hnd & Hmap & Hlen) Hdom]. unfold del.
  destruct (store db !! key) as [v|] eqn:Hst; [|done]. simpl.
  assert (key ∈ lru_map db) as Hin.
  { rewrite <- Hdom. apply elem_of_dom. eauto. }
  unfold unlink. destruct (decide (key ∈ lru_map db)); [|done].
  split; [split_and!|]; simpl.
  - by apply erase_first_NoDup.
  - rewrite Hmap. apply set_eq. intros x.
    rewrite elem_of_difference, !elem_of_list_to_set.
    rewrite elem_of_erase_first by done. set_solver.
  - pose proof (length_erase_first key (lru_keys db)). lia.
  - by rewrite dom_delete_L, Hdom.
Qed.

(** [get] of a resident key: only the list changes. *)
Lemma get_resident (key value : string) (db : BlinkDB) :
  wf N db ->
  store db !! key = Some value ->
  get N key db
  = (value,
     mkBlinkDB (store db) (key :: erase_first key (lru_keys db))
       (lru_map db) (evicted_keys db) (dirty db) (file db)).
Proof.
  intros [Hok Hdom] Hst. unfold get. rewrite Hst. f_equal.
  assert (key ∈ lru_map db) as Hin.
  { rewrite <- Hdom. apply elem_of_dom. eauto. }
  destruct (updateLRU_cases key db Hok)
    as [[Hlen ->] | (l' & e & Hl & Hne & Hnew & Hlen & ->)].
  - by replace ({[key]} ∪ lru_map db) with (lru_map db) by set_solver.
  - destruct Hok as (_ & Hmap & _). rewrite Hmap in Hin. set_solver.
Qed.

(** [get] of a key that is neither resident nor in the file. *)
Lemma get_miss (key : string) (db : BlinkDB) :
  store db !! key = None ->
  Log.lookup key (file db) = None ->
  get N key db = ("NULL", db).
Proof.
  intros Hst Hmiss. unfold get, restoreFromDisk. rewrite Hst, Hmiss, Hst.
  by destruct (decide (is_Some (evicted_keys db !! key))).
Qed.

(** [get] of an evicted key that the file holds. *)
Lemma get_hit (key value : string) (db : BlinkDB) :
  wf N db ->
  store db !! key = None ->
  is_Some (evicted_keys db !! key) ->
  Log.lookup key (file db) = Some value ->
  (get N key db).1 = value
  /\ store (get N key db).2 !! key = Some value
  /\ head (lru_keys (get N key db).2) = Some key
  /\ evicted_keys (get N key db).2 !! key = None.
Proof.
  intros [Hok Hdom] Hst Hmark Hhit. unfold get. rewrite Hst.
  destruct (decide (is_Some (evicted_keys db !! key))); [|done].
  assert (key ∉ lru_keys db) as Hnew.
  { destruct Hok as (_ & Hmap & _). intros Hin.
    apply not_elem_of_dom in Hst. rewrite Hdom, Hmap in Hst. set_solver. }
  assert (store (restoreFromDisk key db) !! key = Some value) as ->.
  { unfold restoreFromDisk. rewrite Hhit. simpl. apply lookup_insert_eq. }
  simpl. rewrite (updateLRU_restored key value) by (done || apply Hok).
  set (db2 := with_evicted_keys (delete key) (with_store (insert key value) db)).
  assert (lru_ok N db2) as Hok2 by done.
  destruct (updateLRU_cases key db2 Hok2)
    as [[Hlen ->] | (l' & e & Hl & Hne & _ & Hlen & ->)]; simpl.
  - by rewrite lookup_insert_eq, lookup_delete_eq.
  - rewrite lookup_delete_ne, lookup_insert_eq by done.
    split_and!; [done..|].
    destruct (decide (is_Some (<[key:=value]> (store db) !! e)));
      [rewrite lookup_insert_ne by done|]; by rewrite lookup_delete_eq.
Qed.



Lemma set_store (key value : string) (db : BlinkDB) :
  store (set N key value db) !! key = Some value.
Proof. unfold set. simpl. apply lookup_insert_eq. Qed.

End Lru.

(** *** Every engine that starts empty is well formed *)

Section Run.

Variable N : nat.
Variable iteration : gmap string string -> list (string * string).
Hypothesis N_pos : 0 < N.

Lemma load_records (recs : list (string * string)) (db : BlinkDB) :
  let db' := fold_left load_record recs db in
  lru_keys db' = reverse recs.*1 ++ lru_keys db
  /\ lru_map db' = list_to_set recs.*1 ∪ lru_map db
  /\ dom (store db') = list_to_set recs.*1 ∪ dom (store db).
Proof.
  revert db. induction recs as [|[k v] recs IH]; intros db; simpl.
  - split_and!; [done | set_solver..].
  - destruct (IH (load_record db (k, v))) as (Hl & Hm & Hd).
    rewrite Hl, Hm, Hd. unfold load_record; simpl.
    rewrite reverse_cons, <- app_assoc, dom_insert_L.
    split_and!; [done | set_solver..].
Qed.

Lemma wf_new (f : option string) : loadable N f -> wf N (new f).
Proof.
  unfold new, loadFromFile. destruct f as [content|]; simpl.
  - intros [Hnd Hlen].
    destruct (load_records (Log.records content) (members_init (Some content)))
      as (Hl & Hm & Hd).
    unfold wf, lru_ok. rewrite Hl, Hm, Hd. simpl.
    rewrite app_nil_r, length_reverse, length_fmap.
    split_and!; [by rewrite reverse_Permutation | | done | set_solver].
    apply set_eq. intros x.
    rewrite elem_of_union, !elem_of_list_to_set, elem_of_reverse. set_solver.
  - intros _. unfold members_init, wf, lru_ok; simpl.
    split_and!; [constructor | done | lia | set_solver].
Qed.

Lemma wf_step (db : BlinkDB) (r : request) :
  wf N db -> wf N (step N iteration db r).
Proof.
  intros Hwf. destruct r as [key value|key|key|o]; simpl.
  - by apply wf_set.
  - by apply wf_get.
  - by apply wf_del.
  - unfold flush_tick. destruct (dirty db); [|done].
    unfold persistToFile. by destruct o.
Qed.

Lemma wf_run (rs : list request) (db : BlinkDB) :
  wf N db -> wf N (run N iteration rs db).
Proof.
  revert db. induction rs as [|r rs IH]; intros db Hwf; [done|].
  simpl. apply IH. by apply wf_step.
Qed.

End Run.

End LruFacts.

(** ** The LRU list with its nodes, and its keys *)

Module LruListFacts.
Import LruList.
Local Close Scope Z_scope.

Lemma first_node_elem (key : string) (it : nat) (ns : list (nat * string)) :
  first_node key ns = Some it -> (it, key) ∈ ns.
Proof.
  induction ns as [|[i k] ns IH]; simpl; [done|].
  destruct (decide (k = key)) as [->|Hne].
  - intros [= ->]. by left.
  - intros H. right. by apply IH.
Qed.

Lemma erase_absent (it : nat) (ns : list (nat * string)) :
  it ∉ ns.*1 -> erase it ns = ns.
Proof.
  induction ns as [|[i k] ns IH]; simpl; [done|].
  intros Hn. apply not_elem_of_cons in Hn as [Hne Hn].
  destruct (decide (i = it)); [congruence|]. by rewrite IH.
Qed.

(** Erasing the node of the iterator of [key] erases the first [key]. *)
Lemma erase_keys (key : string) (it : nat) (ns : list (nat * string)) :
  NoDup ns.*1 ->
  first_node key ns = Some it ->
  (erase it ns).*2 = Engine.erase_first key ns.*2.
Proof.
  induction ns as [|[i k] ns IH]; simpl; [done|].
  intros Hnd Hfirst. apply NoDup_cons in Hnd as [Hi Hnd].
  destruct (decide (k = key)) as [->|Hne].
  - injection Hfirst as ->. by destruct (decide (it = it)).
  - destruct (decide (i = it)) as [->|Hit].
    + exfalso. apply Hi. apply first_node_elem in Hfirst.
      apply list_elem_of_fmap. by exists (it, key).
    + simpl. f_equal. by apply IH.
Qed.

Lemma erase_ids (it : nat) (ns : list (nat * string)) :
  NoDup ns.*1 -> NoDup (erase it ns).*1 /\ (erase it ns).*1 ⊆ ns.*1.
Proof.
  induction ns as [|[i k] ns IH]; simpl; [done|].
  intros Hnd. apply NoDup_cons in Hnd as [Hi Hnd].
  destruct (IH Hnd) as [IH1 IH2].
  destruct (decide (i = it)); simpl.
  - split; [done | set_solver].
  - split; [|set_solver]. constructor; [set_solver | done].
Qed.

Lemma erase_sublist (it : nat) (ns : list (nat * string)) :
  erase it ns ⊆ ns.
Proof.
  induction ns as [|[i k] ns IH]; simpl; [done|].
  destruct (decide (i = it)); set_solver.
Qed.

(** Erasing a node of one key leaves the first node of any other key. *)
Lemma first_node_erase (key key' : string) (it : nat)
    (ns : list (nat * string)) :
  NoDup ns.*1 ->
  first_node key ns = Some it ->
  key' <> key ->
  first_node key' (erase it ns) = first_node key' ns.
Proof.
  induction ns as [|[i k] ns IH]; simpl; [done|].
  intros Hnd Hfirst Hne. apply NoDup_cons in Hnd as [Hi Hnd].
  destruct (decide (k = key)) as [->|Hk].
  - injection Hfirst as ->. destruct (decide (it = it)); [|done].
    by destruct (decide (key = key')); [congruence|].
  - destruct (decide (i = it)) as [->|Hit].
    + exfalso. apply Hi. apply first_node_elem in Hfirst.
      apply list_elem_of_fmap. by exists (it, key).
    + simpl. destruct (decide (k = key')); [done|]. by apply IH.
Qed.

Lemma first_node_snoc (key : string) (i : nat) (e : string)
    (ns : list (nat * string)) :
  e <> key -> first_node key (ns ++ [(i, e)]) = first_node key ns.
Proof.
  intros Hne. induction ns as [|[j k] ns IH]; simpl.
  - by destruct (decide (e = key)).
  - destruct (decide (k = key)); [done | apply IH].
Qed.

Lemma sound_empty : sound empty.
Proof. split_and!; [constructor | constructor | done]. Qed.

Lemma push_front_sound (key : string) (l : lru) :
  sound l ->
  sound (push_front key l)
  /\ keys (push_front key l) = key :: keys l
  /\ entries (push_front key l) = {[key]} ∪ entries l.
Proof.
  intros (Hnd & Hold & Hit). split_and!.
  - split_and!; simpl.
    + constructor; [|done]. intros Hin.
      apply list_elem_of_fmap in Hin as (n & Hn & Hin).
      rewrite Forall_forall in Hold. specialize (Hold n Hin). lia.
    + constructor; [simpl; lia|].
      eapply Forall_impl; [exact Hold|]. simpl. intros; lia.
    + intros key' it. destruct (decide (key = key')) as [->|Hne].
      * rewrite lookup_insert_eq. by intros [= <-].
      * rewrite lookup_insert_ne by done. apply Hit.
  - done.
  - unfold entries. simpl. by rewrite dom_insert_L.
Qed.

Lemma unlink_sound (key : string) (l : lru) :
  sound l ->
  sound (unlink key l)
  /\ keys (unlink key l)
     = (if decide (key ∈ entries l) then Engine.erase_first key (keys l)
        else keys l)
  /\ entries (unlink key l)
     = (if decide (key ∈ entries l) then entries l ∖ {[key]} else entries l).
Proof.
  intros (Hnd & Hold & Hit). unfold unlink, entries, keys.
  destruct (iters l !! key) as [it|] eqn:Hkey.
  - assert (key ∈ dom (iters l)) as Hin by (apply elem_of_dom; eauto).
    destruct (decide (key ∈ dom (iters l))); [|done]. simpl.
    pose proof (Hit key it Hkey) as Hfirst.
    split_and!; [split_and!| |]; simpl.
    + by apply erase_ids.
    + rewrite Forall_forall in *. intros n Hn. apply Hold.
      by apply erase_sublist in Hn.
    + intros key' it'. destruct (decide (key = key')) as [->|Hne].
      * by rewrite lookup_delete_eq.
      * rewrite lookup_delete_ne by done. intros Hk'.
        rewrite (first_node_erase key key') by done. by apply Hit.
    + by apply erase_keys.
    + by rewrite dom_delete_L.
  - assert (key ∉ dom (iters l)) as Hout by (by apply not_elem_of_dom).
    by destruct (decide (key ∈ dom (iters l))).
Qed.

Lemma pop_back_sound (d : string) (l : lru) :
  sound l ->
  sound (pop_back d l)
  /\ keys (pop_back d l) = List.removelast (keys l)
  /\ entries (pop_back d l) = entries l ∖ {[List.last (keys l) d]}.
Proof.
  intros (Hnd & Hold & Hit). unfold pop_back, entries, keys. simpl.
  destruct (nodes l) as [|[i e] ns _] eqn:Hns using rev_ind.
  - simpl. split_and!; [split_and!| |]; simpl.
    + constructor.
    + constructor.
    + intros key it Hk. apply lookup_delete_Some in Hk as [_ Hk].
      by apply Hit in Hk.
    + done.
    + by rewrite dom_delete_L.
  - rewrite fmap_app. simpl. rewrite last_last, !removelast_last.
    rewrite fmap_app in Hnd. apply NoDup_app in Hnd as (Hnd & _ & _).
    apply Forall_app in Hold as [Hold _].
    split_and!; [split_and!| |]; simpl.
    + done.
    + done.
    + intros key it Hk. apply lookup_delete_Some in Hk as [Hne Hk].
      apply Hit in Hk. by rewrite first_node_snoc in Hk.
    + done.
    + by rewrite dom_delete_L.
Qed.

End LruListFacts.

(** ** The engine: filling it up *)

Module FillFacts.
Import Engine Scenario LruFacts.
Local Close Scope Z_scope.

Section Fill.

Variable N : nat.
Variable iteration : gmap string string -> list (string * string).

Lemma list_to_set_reverse (l : list string) :
  list_to_set (reverse l) =@{gset string} list_to_set l.
Proof.
  apply set_eq. intros x. by rewrite !elem_of_list_to_set, elem_of_reverse.
Qed.

(** A new key while there is room: it is added. *)
Lemma set_room (kvs : list (string * string)) (key value : string)
    (ev : gmap string bool) (d : bool) (f : option string) :
  key ∉ kvs.*1 ->
  length kvs < N ->
  set N key value (filled kvs ev d f)
  = filled (kvs ++ [(key, value)]) ev true f.
Proof.
  intros Hnew Hlen. unfold set, filled.
  rewrite updateLRU_unfold by (simpl; by rewrite list_to_set_reverse).
  cbn [lru_keys lru_map store evicted_keys dirty file]. cbn zeta.
  rewrite erase_first_absent by (by rewrite elem_of_reverse).
  destruct (decide (N < length (key :: reverse kvs.*1))) as [Hfull|_].
  { simpl in Hfull. rewrite length_reverse, length_fmap in Hfull. lia. }
  unfold with_dirty, with_store; simpl.
  rewrite list_to_map_snoc by done.
  rewrite fmap_snoc, reverse_snoc, list_to_set_snoc_L. simpl.
  by rewrite (union_comm_L _ {[key]}).
Qed.

(** A new key when the engine is full: the key set first is evicted and
    marked. *)
Lemma set_overflow (k1 v1 : string) (rest : list (string * string))
    (key value : string) (ev : gmap string bool) (d : bool)
    (f : option string) :
  NoDup ((k1 :: rest.*1) ++ [key]) ->
  S (length rest) = N ->
  set N key value (filled ((k1, v1) :: rest) ev d f)
  = filled (rest ++ [(key, value)]) (<[k1:=true]> ev) true f.
Proof.
  intros Hnd Hlen. unfold set, filled.
  apply NoDup_app in Hnd as (Hnd & Hdisj & _).
  apply NoDup_cons in Hnd as [Hk1 Hnd].
  assert (key ∉ k1 :: rest.*1) as Hnew.
  { intros Hin. apply (Hdisj _ Hin). by left. }
  rewrite updateLRU_unfold by (simpl; by rewrite list_to_set_reverse).
  cbn [lru_keys lru_map store evicted_keys dirty file]. cbn zeta.
  rewrite erase_first_absent by (by rewrite elem_of_reverse).
  rewrite fmap_cons, reverse_cons. simpl fst.
  rewrite last_snoc, removelast_snoc.
  destruct (decide (N < length (key :: reverse rest.*1 ++ [k1])))
    as [_|Hroom].
  2:{ exfalso. apply Hroom. simpl.
      rewrite length_app, length_reverse, length_fmap. simpl. lia. }
  rewrite list_to_map_cons, lookup_insert_eq.
  destruct (decide (is_Some (Some v1))) as [_|Hno]; [|exfalso; eauto].
  unfold with_dirty, with_store; simpl.
  rewrite delete_insert_id by (by apply not_elem_of_list_to_map_1).
  rewrite list_to_map_snoc by set_solver.
  rewrite fmap_snoc, reverse_snoc, list_to_set_snoc_L. simpl.
  f_equal. apply set_eq. intros x.
  rewrite elem_of_difference, !elem_of_union, !elem_of_singleton,
    elem_of_list_to_set.
  split.
  - intros [[->|[->|Hx]] Hne]; [by right | done | by left].
  - intros [Hx| ->]; [split; [by right; right | by intros ->]|].
    split; [by left | set_solver].
Qed.

(** The engine after [SET]s of distinct keys that fit. *)
Lemma run_sets_room (kvs : list (string * string)) (f : option string) :
  NoDup kvs.*1 ->
  length kvs <= N ->
  run N iteration (sets kvs) (members_init f)
  = filled kvs ∅ (bool_decide (kvs <> [])) f.
Proof.
  induction kvs as [|[key value] kvs IH] using rev_ind; intros Hnd Hlen.
  - reflexivity.
  - rewrite fmap_app in Hnd. apply NoDup_app in Hnd as (Hnd & Hdisj & _).
    rewrite length_app in Hlen. simpl in Hlen.
    unfold sets, run. rewrite map_app, fold_left_app. simpl.
    fold (sets kvs). fold (run N iteration (sets kvs) (members_init f)).
    rewrite IH by (done || lia).
    rewrite set_room; [| |lia].
    + f_equal. symmetry. apply bool_decide_eq_true. by destruct kvs.
    + intros Hin. apply (Hdisj _ Hin). by left.
Qed.

End Fill.

End FillFacts.

(** ** The scenarios *)

Module ScenarioFacts.
Import Engine Scenario LruFacts FillFacts LogFacts.
Local Close Scope Z_scope.

Lemma length_nth_key (i : nat) : String.length (nth_key i) = S i.
Proof. induction i as [|i IH]; simpl; [done | by rewrite IH]. Qed.

Local Instance nth_key_inj : Inj (=) (=) nth_key.
Proof.
  intros i j Heq. apply (f_equal String.length) in Heq.
  rewrite !length_nth_key in Heq. lia.
Qed.

Lemma nth_key_tab_free (i : nat) : Log.free_of Str.TAB (nth_key i) = true.
Proof. induction i as [|i IH]; simpl; [done | by rewrite IH]. Qed.

Lemma pair_of_representable (i : nat) : Log.representable (pair_of i).
Proof. split; [apply nth_key_tab_free | reflexivity]. Qed.

Lemma load_keys (n : nat) :
  ((load n).*1 ++ [(one_more n).1]) = nth_key <$> seq 0 (S (S n)).
Proof.
  unfold load, one_more. rewrite (seq_S (S n)). simpl.
  rewrite fmap_app. simpl. f_equal. f_equal.
  rewrite <- list_fmap_compose. reflexivity.
Qed.

Lemma load_NoDup (n : nat) : NoDup ((load n).*1 ++ [(one_more n).1]).
Proof.
  rewrite load_keys. apply (NoDup_fmap_2 _). apply NoDup_seq.
Qed.

Lemma length_load (n : nat) : length (load n) = S n.
Proof. unfold load. simpl. by rewrite length_map, length_seq. Qed.

Lemma load_representable (n : nat) : Forall Log.representable (load n).
Proof.
  unfold load. constructor; [apply pair_of_representable|].
  apply Forall_forall. intros kv Hin. apply list_elem_of_In in Hin.
  apply in_map_iff in Hin as (i & <- & _). apply pair_of_representable.
Qed.

Section Runs.

Variable N : nat.
Variable iteration : gmap string string -> list (string * string).
Hypothesis iteration_perm : forall m, iteration m ≡ₚ map_to_list m.

Lemma sets_snoc (kvs : list (string * string)) (key value : string) :
  sets (kvs ++ [(key, value)]) = sets kvs ++ [SET key value].
Proof. unfold sets. by rewrite map_app. Qed.

Lemma run_app (rs rs' : list request) (db : BlinkDB) :
  run N iteration (rs ++ rs') db
  = run N iteration rs' (run N iteration rs db).
Proof. unfold run. apply fold_left_app. Qed.

(** What a look-up finds in a file that was written from [kvs]. *)
Lemma lookup_written (kvs : list (string * string)) (key : string) :
  NoDup kvs.*1 ->
  Forall Log.representable kvs ->
  Log.lookup key (Some (Log.write_records (iteration (list_to_map kvs))))
  = (list_to_map kvs : gmap string string) !! key.
Proof.
  intros Hnd Hrep. unfold Log.lookup.
  rewrite records_write_records; [by apply first_match_map|].
  apply Forall_forall. intros [k v] Hin.
  rewrite iteration_perm in Hin. apply elem_of_map_to_list in Hin.
  apply elem_of_list_to_map in Hin; [|done].
  rewrite Forall_forall in Hrep. by apply Hrep.
Qed.

(** [N + 1] distinct keys are set in an empty engine of capacity [N]. *)
Lemma run_overflow (k1 v1 : string) (rest : list (string * string))
    (kl vl : string) :
  NoDup ((k1 :: rest.*1) ++ [kl]) ->
  S (length rest) = N ->
  run N iteration (sets (((k1, v1) :: rest) ++ [(kl, vl)])) (new None)
  = filled (rest ++ [(kl, vl)]) {[k1 := true]} true None.
Proof.
  intros Hnd Hlen. rewrite sets_snoc, run_app.
  change (new None) with (members_init None).
  rewrite run_sets_room; [|by apply NoDup_app in Hnd as [? _] | simpl; lia].
  simpl. rewrite (set_overflow N k1 v1 rest kl vl) by done.
  by rewrite insert_empty.
Qed.

(** [N] distinct keys are set, the file is written, one more key is set,
    and the key set first is deleted. *)
Lemma run_flush_overflow_del (k1 v1 : string) (rest : list (string * string))
    (kl vl : string) :
  NoDup ((k1 :: rest.*1) ++ [kl]) ->
  S (length rest) = N ->
  run N iteration
    (sets ((k1, v1) :: rest) ++ [TICK IoOk; SET kl vl; DEL k1]) (new None)
  = filled (rest ++ [(kl, vl)]) {[k1 := true]} true
      (Some (Log.write_records
               (iteration (list_to_map ((k1, v1) :: rest))))).
Proof.
  intros Hnd Hlen. rewrite run_app.
  change (new None) with (members_init None).
  rewrite run_sets_room; [|by apply NoDup_app in Hnd as [? _] | simpl; lia].
  rewrite bool_decide_eq_true_2 by done.
  cbn [run fold_left step]. unfold flush_tick at 1. cbn [dirty filled].
  unfold persistToFile.
  change (with_dirty false (with_file ?f (filled ?kvs ?ev ?d ?f0)))
    with (filled kvs ev false f).
  change (store (filled ((k1, v1) :: rest) ∅ true None))
    with (list_to_map ((k1, v1) :: rest) : gmap string string).
  rewrite (set_overflow N k1 v1 rest kl vl) by done.
  rewrite insert_empty. unfold del.
  assert (store (filled (rest ++ [(kl, vl)]) {[k1 := true]} true
            (Some (Log.write_records
                     (iteration (list_to_map ((k1, v1) :: rest))))))
          !! k1 = None) as ->; [|done].
  simpl. apply not_elem_of_list_to_map_1.
  apply NoDup_app in Hnd as (Hnd & Hdisj & _).
  apply NoDup_cons in Hnd as [Hk1 _].
  rewrite fmap_app, elem_of_app. intros [Hin|Hin]; [done|].
  apply list_elem_of_singleton in Hin. simpl in Hin.
  apply (Hdisj k1); [by left|]. by apply list_elem_of_singleton.
Qed.

(** The same, and then the file is written. *)
Lemma run_overflow_flush (k1 v1 : string) (rest : list (string * string))
    (kl vl : string) :
  NoDup ((k1 :: rest.*1) ++ [kl]) ->
  S (length rest) = N ->
  run N iteration
    (sets (((k1, v1) :: rest) ++ [(kl, vl)]) ++ [TICK IoOk]) (new None)
  = filled (rest ++ [(kl, vl)]) {[k1 := true]} false
      (Some (Log.write_records
               (iteration (list_to_map (rest ++ [(kl, vl)]))))).
Proof.
  intros Hnd Hlen. rewrite run_app, run_overflow by done. reflexivity.
Qed.

Lemma wf_from_new (f : option string) (rs : list request) :
  0 < N -> loadable N f -> wf N (run N iteration rs (new f)).
Proof. intros HN Hf. by apply wf_run, wf_new. Qed.

(** The key set first, evicted by the overflow and then deleted, is read
    back from the file. *)
Lemma get_after_del (k1 v1 : string) (rest : list (string * string))
    (kl vl : string) :
  NoDup ((k1 :: rest.*1) ++ [kl]) ->
  S (length rest) = N ->
  Forall Log.representable ((k1, v1) :: rest) ->
  let db :=
    run N iteration
      (sets ((k1, v1) :: rest) ++ [TICK IoOk; SET kl vl; DEL k1])
      (new None) in
  store db !! k1 = None
  /\ evicted_keys db !! k1 = Some true
  /\ (get N k1 db).1 = v1.
Proof.
  intros Hnd Hlen Hrep db.
  assert (wf N db) as Hwf by (apply wf_from_new; [lia | done]).
  assert (NoDup ((k1, v1) :: rest).*1) as Hnd1
    by (by apply NoDup_app in Hnd as [? _]).
  subst db. rewrite run_flush_overflow_del in * by done.
  assert (store (filled (rest ++ [(kl, vl)]) {[k1 := true]} true
            (Some (Log.write_records
                     (iteration (list_to_map ((k1, v1) :: rest))))))
          !! k1 = None) as Hst.
  { simpl. apply not_elem_of_list_to_map_1.
    apply NoDup_app in Hnd as (Hnd & Hdisj & _).
    apply NoDup_cons in Hnd as [Hk1 _].
    rewrite fmap_app, elem_of_app. intros [Hin|Hin]; [done|].
    apply list_elem_of_singleton in Hin. simpl in Hin.
    apply (Hdisj k1); [by left|]. by apply list_elem_of_singleton. }
  split_and!; [done | apply lookup_singleton_eq |].
  apply get_hit; [lia | done | done | | ].
  - simpl. rewrite lookup_singleton_eq. eauto.
  - cbn [file filled]. rewrite lookup_written by done.
    apply lookup_insert_eq.
Qed.

(** After the overflow and a flush, the key set first is marked and is
    not in the file. *)
Lemma marked_not_in_file (k1 v1 : string) (rest : list (string * string))
    (kl vl : string) :
  NoDup ((k1 :: rest.*1) ++ [kl]) ->
  S (length rest) = N ->
  Forall Log.representable (rest ++ [(kl, vl)]) ->
  let db :=
    run N iteration
      (sets (((k1, v1) :: rest) ++ [(kl, vl)]) ++ [TICK IoOk]) (new None) in
  evicted_keys db !! k1 = Some true
  /\ dirty db = false
  /\ Log.lookup k1 (file db) = None.
Proof.
  intros Hnd Hlen Hrep db. subst db. rewrite run_overflow_flush by done.
  apply NoDup_app in Hnd as (Hnd & Hdisj & Hl).
  apply NoDup_cons in Hnd as [Hk1 Hnd].
  assert (k1 ∉ (rest ++ [(kl, vl)]).*1) as Hout.
  { rewrite fmap_app, elem_of_app. intros [Hin|Hin]; [done|].
    apply list_elem_of_singleton in Hin. simpl in Hin.
    apply (Hdisj k1); [by left|]. by apply list_elem_of_singleton. }
  split_and!; [apply lookup_singleton_eq | done |].
  cbn [file filled]. rewrite lookup_written; [| |done].
  - by apply not_elem_of_list_to_map_1.
  - rewrite fmap_app. apply NoDup_app. split_and!; [done| |done].
    intros x Hx Hx'. apply (Hdisj x); [by right | done].
Qed.


End Runs.

End ScenarioFacts.

(** ** Files with more records than the engine holds *)

Module OverfullFacts.
Import Str Log Engine Scenario LogFacts LruFacts FillFacts ScenarioFacts.
Local Close Scope Z_scope.

Lemma write_records_app (l1 l2 : list (string * string)) :
  write_records (l1 ++ l2) = write_records l1 +:+ write_records l2.
Proof.
  induction l1 as [|[k v] l1 IH]; [done|]. cbn [app write_records].
  by rewrite IH, append_assoc, append_cons, append_assoc, append_cons.
Qed.

Lemma write_packed (key value : string) (rest : list (string * string))
    (last : string * string) :
  write_records [(key, packed value rest last)]
  = write_records ((key, value) :: rest ++ [last]).
Proof.
  destruct last as [kl vl]. cbn [write_records]. unfold packed.
  rewrite write_records_app. cbn [write_records fst snd].
  do 2 f_equal.
  by rewrite append_assoc, append_cons, !append_assoc, append_cons.
Qed.

Lemma erase_first_snoc (key : string) (l : list string) :
  key ∉ l -> erase_first key (l ++ [key]) = l.
Proof.
  induction l as [|x l IH]; intros Hn; simpl.
  - by rewrite decide_True.
  - apply not_elem_of_cons in Hn as [Hne Hn].
    rewrite decide_False by done. by rewrite IH.
Qed.

(** [loadFromFile] on records with distinct keys. *)
Lemma load_filled (recs : list (string * string)) :
  forall (kvs : list (string * string)) (ev : gmap string bool) (d : bool)
         (f : option string),
    NoDup (kvs ++ recs).*1 ->
    fold_left load_record recs (filled kvs ev d f)
    = filled (kvs ++ recs) ev d f.
Proof.
  induction recs as [|[k v] recs IH]; intros kvs ev d f Hnd.
  { by rewrite app_nil_r. }
  cbn [fold_left].
  assert (k ∉ kvs.*1) as Hnew.
  { rewrite fmap_app in Hnd. apply NoDup_app in Hnd as (_ & Hdisj & _).
    intros Hin. apply (Hdisj _ Hin). by left. }
  assert (load_record (filled kvs ev d f) (k, v)
          = filled (kvs ++ [(k, v)]) ev d f) as ->.
  { unfold load_record, filled, push_front, with_lru_map, with_lru_keys,
      with_store. cbn.
    rewrite list_to_map_snoc by done.
    rewrite fmap_app, reverse_app, list_to_set_app_L. cbn.
    f_equal. set_solver. }
  rewrite IH; [by rewrite <- app_assoc | by rewrite <- app_assoc].
Qed.

(** The engine that the constructor builds from a file of records with
    distinct keys, however many they are. *)
Lemma new_written (l : list (string * string)) :
  Forall representable l ->
  NoDup l.*1 ->
  new (Some (write_records l)) = filled l ∅ false (Some (write_records l)).
Proof.
  intros Hrep Hnd. unfold new, loadFromFile. cbn [file members_init].
  rewrite records_write_records by done.
  by apply (load_filled l [] ∅ false).
Qed.

(** One [SET] and a flush: the file holds what was written for the
    pair. *)
Lemma written_by_one_set (N : nat) (key value : string) :
  0 < N ->
  file (run N map_to_list [SET key value; TICK IoOk] (new None))
  = Some (write_records [(key, value)]).
Proof.
  intros HN. change (new None) with (filled [] ∅ false None).
  cbn [run fold_left step].
  rewrite (set_room N [] key value ∅ false None);
    [|apply not_elem_of_nil | simpl; lia].
  unfold flush_tick, persistToFile, filled. cbn.
  by rewrite insert_empty, map_to_list_singleton.
Qed.

(** [get] of the resident key that is at the back of the LRU list, in an
    engine that holds one key more than its capacity: the key moves to
    the front, and the key that is at the back then is evicted. *)
Lemma get_overfull (N : nat) (k1 v1 k2 v2 : string)
    (rest : list (string * string)) (ev : gmap string bool) (d : bool)
    (f : option string) :
  NoDup (k1 :: k2 :: rest.*1) ->
  S (length rest) = N ->
  let db := filled ((k1, v1) :: (k2, v2) :: rest) ev d f in
  store db !! k1 = Some v1
  /\ store db !! k2 = Some v2
  /\ (get N k1 db).1 = v1
  /\ store (get N k1 db).2 = delete k2 (store db)
  /\ lru_keys (get N k1 db).2 = k1 :: reverse rest.*1
  /\ evicted_keys (get N k1 db).2 = <[k2:=true]> ev
  /\ dirty (get N k1 db).2 = true.
Proof.
  intros Hnd Hlen db.
  apply NoDup_cons in Hnd as [Hk1 Hnd].
  assert (k1 <> k2) as Hne by (intros ->; apply Hk1; by left).
  assert (store db !! k1 = Some v1) as Hst1
    by (unfold db, filled; cbn; apply lookup_insert_eq).
  assert (store db !! k2 = Some v2) as Hst2.
  { unfold db, filled. cbn. rewrite lookup_insert_ne by done.
    apply lookup_insert_eq. }
  assert (k1 ∉ reverse rest.*1 ++ [k2]) as Hout.
  { rewrite elem_of_app, elem_of_reverse, list_elem_of_singleton.
    intros [Hin | ->]; [|done]. apply Hk1. by right. }
  assert (lru_keys db = (reverse rest.*1 ++ [k2]) ++ [k1]) as Hkeys.
  { unfold db, filled. cbn [lru_keys]. rewrite !fmap_cons. cbn [fst].
    by rewrite !reverse_cons. }
  assert (get N k1 db = (v1, updateLRU N k1 db)) as Hget
    by (unfold get; by rewrite Hst1).
  rewrite Hget, updateLRU_unfold
    by (unfold db, filled; cbn [lru_map lru_keys];
        by rewrite list_to_set_reverse).
  rewrite Hkeys, (erase_first_snoc k1 _ Hout). cbn zeta.
  rewrite decide_True; cycle 1.
  { cbn [length]. rewrite length_app, length_reverse, length_fmap.
    cbn [length]. lia. }
  rewrite last_snoc, removelast_snoc.
  rewrite decide_True by (by rewrite Hst2).
  by split_and!.
Qed.

(** The two together: a file of [N + 1] records with distinct keys, which
    one [SET] and a flush write, and [get] of a resident key in the engine
    that the constructor builds from it. *)
Lemma overfull_restart (N : nat) (k1 v1 k2 v2 : string)
    (rest : list (string * string)) (last : string * string) :
  0 < N ->
  Forall representable ((k1, v1) :: (k2, v2) :: rest ++ [last]) ->
  NoDup ((k1, v1) :: (k2, v2) :: rest ++ [last]).*1 ->
  S (length (rest ++ [last])) = N ->
  let content := write_records ((k1, v1) :: (k2, v2) :: rest ++ [last]) in
  let db := new (Some content) in
  file (run N map_to_list
          [SET k1 (packed v1 ((k2, v2) :: rest) last); TICK IoOk] (new None))
  = Some content
  /\ store db !! k1 = Some v1
  /\ store db !! k2 = Some v2
  /\ evicted_keys db = ∅
  /\ dirty db = false
  /\ (get N k1 db).1 = v1
  /\ store (get N k1 db).2 !! k2 = None
  /\ evicted_keys (get N k1 db).2 !! k2 = Some true
  /\ dirty (get N k1 db).2 = true.
Proof.
  intros HN Hrep Hnd Hlen content db.
  assert (db = filled ((k1, v1) :: (k2, v2) :: rest ++ [last]) ∅ false
                 (Some content)) as Hdb
    by (by apply new_written).
  clearbody db. subst db.
  destruct (get_overfull N k1 v1 k2 v2 (rest ++ [last]) ∅ false
              (Some content) Hnd Hlen)
    as (Hst1 & Hst2 & Hval & Hstore & _ & Hev & Hdirty).
  split_and!; [| exact Hst1 | exact Hst2 | reflexivity | reflexivity
               | exact Hval | | | exact Hdirty].
  - rewrite written_by_one_set by done. by rewrite write_packed.
  - rewrite Hstore. apply lookup_delete_eq.
  - rewrite Hev. apply lookup_insert_eq.
Qed.

End OverfullFacts.

(** ** The claims about the engine *)

Module EngineClaims.
Import Engine Scenario LruFacts FillFacts LogFacts ScenarioFacts OverfullFacts.
Local Close Scope Z_scope.



(** C10, as the code has it.  In an engine that was constructed without
    a persistence file, or from a loadable one (records with distinct
    keys, no more of them than the capacity), and then driven by any
    requests and flush rounds, [get] of a resident key returns its value
    and changes the LRU list only, where the key moves to the front:
    [store], the eviction markers, the file and [dirty] are as before,
    and so is the number of resident keys (nothing is evicted). *)
Theorem get_resident_reorders_only (N : nat)
    (iteration : gmap string string -> list (string * string))
    (HN : 0 < N) (f : option string) (rs : list request)
    (key value : string) :
  loadable N f ->
  let db := run N iteration rs (new f) in
  store db !! key = Some value ->
  (get N key db).1 = value
  /\ store (get N key db).2 = store db
  /\ evicted_keys (get N key db).2 = evicted_keys db
  /\ file (get N key db).2 = file db
  /\ dirty (get N key db).2 = dirty db
  /\ lru_keys (get N key db).2 = key :: erase_first key (lru_keys db)
  /\ lru_keys (get N key db).2 ≡ₚ lru_keys db
  /\ size (store (get N key db).2) = size (store db).
Proof.
  intros Hf db Hst.
  assert (wf N db) as Hwf by (by apply wf_from_new).
  rewrite (get_resident N HN key value db Hwf Hst). simpl.
  split_and!; try done.
  apply erase_first_perm.
  destruct Hwf as [(_ & Hmap & _) Hdom].
  assert (key ∈ dom (store db)) as Hin by (apply elem_of_dom; eauto).
  rewrite Hdom, Hmap in Hin. by apply elem_of_list_to_set in Hin.
Qed.

Lemma get_resident_reorders_only_witness :
  0 < 2
  /\ loadable 2 None
  /\ (let db := run 2 map_to_list [SET "a" "1"; SET "b" "2"] (new None) in
      store db !! "a" = Some "1"
      /\ (get 2 "a" db).1 = "1"
      /\ store (get 2 "a" db).2 = store db
      /\ evicted_keys (get 2 "a" db).2 = evicted_keys db
      /\ file (get 2 "a" db).2 = file db
      /\ dirty (get 2 "a" db).2 = dirty db
      /\ lru_keys (get 2 "a" db).2 = "a" :: erase_first "a" (lru_keys db)
      /\ lru_keys (get 2 "a" db).2 ≡ₚ lru_keys db
      /\ size (store (get 2 "a" db).2) = size (store db)).
Proof.
  assert (0 < 2) as HN by lia.
  split; [exact HN|]. split; [exact I|]. intros db.
  assert (store db !! "a" = Some "1") as Hst by (vm_compute; reflexivity).
  split; [exact Hst|].
  exact (get_resident_reorders_only 2 map_to_list HN None
           [SET "a" "1"; SET "b" "2"] "a" "1" I Hst).
Defined.

(** C10, as the specification has it (every resident key, in any
    engine), fails.  With the capacity of the build: one [SET] whose
    value has newlines in it, and a flush, write a file of
    [MAX_CAPACITY + 1] records with distinct keys; the engine that the
    constructor builds from this file holds them all, clean and without a
    marker, since [loadFromFile] does not evict.  There the keys
    [nth_key 0] and [nth_key 1] are resident, and [get] of the first
    returns its value, evicts the second, marks it, and sets [dirty]. *)
Lemma get_of_resident_key_evicts :
  let k1 := nth_key 0 in
  let k2 := nth_key 1 in
  let content := Log.write_records (full_load ++ [overflow_pair]) in
  let db := new (Some content) in
  file (run MAX_CAPACITY map_to_list [SET k1 overfull_value; TICK IoOk]
          (new None)) = Some content
  /\ store db !! k1 = Some "v"
  /\ store db !! k2 = Some "v"
  /\ evicted_keys db = ∅
  /\ dirty db = false
  /\ (get MAX_CAPACITY k1 db).1 = "v"
  /\ store (get MAX_CAPACITY k1 db).2 !! k2 = None
  /\ evicted_keys (get MAX_CAPACITY k1 db).2 !! k2 = Some true
  /\ dirty (get MAX_CAPACITY k1 db).2 = true.
Proof.
  apply (overfull_restart MAX_CAPACITY (nth_key 0) "v" (nth_key 1) "v"
           (map pair_of (seq 2 (pred (pred MAX_CAPACITY)))) overflow_pair).
  - unfold MAX_CAPACITY. lia.
  - apply (Forall_app _ full_load [overflow_pair]). split.
    + apply (load_representable (pred MAX_CAPACITY)).
    + constructor; [apply pair_of_representable | constructor].
  - change (NoDup (full_load ++ [overflow_pair]).*1). rewrite fmap_app.
    apply (load_NoDup (pred MAX_CAPACITY)).
  - rewrite length_app, length_map, length_seq. reflexivity.
Qed.




(** C1.  With the capacity of the build: [MAX_CAPACITY] distinct keys are
    set, the flush thread writes the file, one more key is set (which
    evicts the key set first), and the key set first is deleted.  Then
    that key is not resident, but its marker is still there, and [get]
    reads its value back from the file. *)
Theorem deleted_key_is_read_back :
  let k1 := nth_key 0 in
  let db :=
    run MAX_CAPACITY map_to_list
      (sets full_load
       ++ [TICK IoOk; SET overflow_pair.1 overflow_pair.2; DEL k1])
      (new None) in
  store db !! k1 = None
  /\ evicted_keys db !! k1 = Some true
  /\ (get MAX_CAPACITY k1 db).1 = "v".
Proof.
  apply (get_after_del MAX_CAPACITY map_to_list (fun m => reflexivity _)
           (nth_key 0) "v" (map pair_of (seq 1 (pred MAX_CAPACITY)))
           (nth_key (S (pred MAX_CAPACITY))) "v").
  - apply (load_NoDup (pred MAX_CAPACITY)).
  - rewrite length_map, length_seq. reflexivity.
  - apply (load_representable (pred MAX_CAPACITY)).
Qed.

(** C2.  With the capacity of the build: after [SET]s of
    [MAX_CAPACITY + 1] distinct keys and a flush that succeeds, the key
    set first is in the eviction marker set, the engine is clean, and the
    file has no record for that key. *)
Theorem evicted_key_is_not_written :
  let k1 := nth_key 0 in
  let db :=
    run MAX_CAPACITY map_to_list
      (sets (full_load ++ [overflow_pair]) ++ [TICK IoOk]) (new None) in
  evicted_keys db !! k1 = Some true
  /\ dirty db = false
  /\ Log.lookup k1 (file db) = None.
Proof.
  apply (marked_not_in_file MAX_CAPACITY map_to_list (fun m => reflexivity _)
           (nth_key 0) "v" (map pair_of (seq 1 (pred MAX_CAPACITY)))
           (nth_key (S (pred MAX_CAPACITY))) "v").
  - apply (load_NoDup (pred MAX_CAPACITY)).
  - rewrite length_map, length_seq. reflexivity.
  - apply Forall_app. split.
    + pose proof (load_representable (pred MAX_CAPACITY)) as H.
      by apply Forall_cons in H as [_ H].
    + constructor; [apply pair_of_representable | constructor].
Qed.

(** C6.  A flush whose file cannot be opened leaves the file as it was
    and clears [dirty] all the same, and so does one whose stream fails
    after some bytes: the next round of the flush thread finds the engine
    clean and does nothing. *)
Theorem failed_flush_clears_dirty
    (iteration : gmap string string -> list (string * string))
    (db : BlinkDB) :
  dirty (persistToFile iteration IoOpenFails db) = false
  /\ file (persistToFile iteration IoOpenFails db) = file db
  /\ (forall n, dirty (persistToFile iteration (IoWriteFails n) db) = false)
  /\ (forall o,
        flush_tick iteration o (flush_tick iteration IoOpenFails db)
        = flush_tick iteration IoOpenFails db).
Proof.
  split_and!; try done.
  intros o. unfold flush_tick. by destruct (dirty db) eqn:Hd; simpl; rewrite ?Hd.
Qed.

(** C8.  A flush that succeeds writes the records of [store] and leaves
    [store] alone; a second one right after it writes the same bytes. *)
Theorem flush_twice_same_bytes
    (iteration : gmap string string -> list (string * string))
    (db : BlinkDB) :
  file (persistToFile iteration IoOk db)
    = Some (Log.write_records (iteration (store db)))
  /\ store (persistToFile iteration IoOk db) = store db
  /\ file (persistToFile iteration IoOk (persistToFile iteration IoOk db))
     = file (persistToFile iteration IoOk db).
Proof. done. Qed.

End EngineClaims.

(** ** The claims about the server *)

Module ServerClaims.
Import Str Resp Engine LruFacts ScenarioFacts.
Local Close Scope Z_scope.

(** C9.  In an engine that was constructed without a persistence file,
    or from a loadable one, [get] of a key whose value is the four bytes
    [NULL] returns what [get] returns for any key that is neither
    resident nor marked, and the server answers [GET] of that key with
    the null bulk reply. *)
Theorem null_value_reads_as_absent (N : nat)
    (iteration : gmap string string -> list (string * string))
    (HN : 0 < N) (f : option string) (rs : list request) (key : string) :
  loadable N f ->
  let db := run N iteration rs (new f) in
  store db !! key = Some "NULL" ->
  (get N key db).1 = "NULL"
  /\ (forall db' key',
        store db' !! key' = None ->
        evicted_keys db' !! key' = None ->
        (get N key' db').1 = (get N key db).1)
  /\ (Server.handleCommand N ["GET"; key] db).1 = "$-1" +:+ CRLF.
Proof.
  intros Hf db Hst.
  assert (wf N db) as Hwf by (by apply wf_from_new).
  pose proof (get_resident N HN key "NULL" db Hwf Hst) as Hget.
  split_and!.
  - by rewrite Hget.
  - intros db' key' Hst' Hev'. rewrite Hget. unfold get.
    rewrite Hst', Hev'.
    by destruct (decide (is_Some (@None bool))) as [[? ?]|_].
  - unfold Server.handleCommand, Server.processGet. simpl.
    unfold Server.arg. simpl. by rewrite Hget.
Qed.

Lemma null_value_reads_as_absent_witness :
  let f := Some ("a" +:+ String TAB ("NULL" +:+ String LF EmptyString)) in
  0 < 1
  /\ loadable 1 f
  /\ (let db := run 1 map_to_list [GET "a"] (new f) in
      store db !! "a" = Some "NULL"
      /\ (get 1 "a" db).1 = "NULL"
      /\ (forall db' key',
            store db' !! key' = None ->
            evicted_keys db' !! key' = None ->
            (get 1 key' db').1 = (get 1 "a" db).1)
      /\ (Server.handleCommand 1 ["GET"; "a"] db).1 = "$-1" +:+ CRLF).
Proof.
  intros f.
  assert (0 < 1) as HN by lia.
  assert (loadable 1 f) as Hf.
  { split; [apply (bool_decide_unpack _); vm_compute; exact I|].
    vm_compute. constructor. }
  split; [exact HN|]. split; [exact Hf|]. intros db.
  assert (store db !! "a" = Some "NULL") as Hst by (vm_compute; reflexivity).
  split; [exact Hst|].
  exact (null_value_reads_as_absent 1 map_to_list HN f [GET "a"] "a" Hf Hst).
Defined.

(** C3.  The decoder returns what it has collected so far when the framing
    breaks after the first argument.  For the input of the specification,
    [*2 $3 GET foo] with no [$] before [foo], that is the vector [GET]
    alone, and the server answers [-ERR Unknown command]; for
    [*3 $3 DEL $1 a x] it is [DEL a], and the server runs the command. *)
Theorem decoder_returns_partial_command (N : nat) (db : BlinkDB) :
  let input :=
    "*2" +:+ CRLF +:+ "$3" +:+ CRLF +:+ "GET" +:+ CRLF +:+ "foo" +:+ CRLF in
  let input' :=
    "*3" +:+ CRLF +:+ "$3" +:+ CRLF +:+ "DEL" +:+ CRLF
    +:+ "$1" +:+ CRLF +:+ "a" +:+ CRLF +:+ "x" in
  decodeCommand input = Returns ["GET"]
  /\ Server.handleClientRead N input db
     = Returns ("-ERR Unknown command" +:+ CRLF, db)
  /\ decodeCommand input' = Returns ["DEL"; "a"]
  /\ Server.handleClientRead N input' db
     = Returns (Server.processDel ["DEL"; "a"] db).
Proof. split_and!; reflexivity. Qed.

(** C4.  [std::stoi] throws out of the decoder, and out of
    [handleClientRead]: [invalid_argument] for an array count or a bulk
    length that is not a number, [out_of_range] for one that does not fit
    an [int]. *)
Theorem decoder_throws (N : nat) (db : BlinkDB) :
  decodeCommand ("*x" +:+ CRLF) = Throws invalid_argument
  /\ Server.handleClientRead N ("*x" +:+ CRLF) db = Throws invalid_argument
  /\ decodeCommand ("*99999999999" +:+ CRLF) = Throws out_of_range
  /\ Server.handleClientRead N ("*99999999999" +:+ CRLF) db
     = Throws out_of_range
  /\ decodeCommand ("*1" +:+ CRLF +:+ "$x" +:+ CRLF) = Throws invalid_argument
  /\ decodeCommand ("*1" +:+ CRLF +:+ "$99999999999" +:+ CRLF)
     = Throws out_of_range.
Proof. split_and!; reflexivity. Qed.

End ServerClaims.

(** ** The concrete scenarios of the specification, run on the model *)

Module Tests.
Import Str Engine Scenario.
Local Close Scope Z_scope.

Example stoi_skips_space_and_stops : Stoi.stoi " 12abc" = Returns 12%Z.
Proof. reflexivity. Qed.

Example stoi_negative : Stoi.stoi "-7" = Returns (-7)%Z.
Proof. reflexivity. Qed.

Example decode_get_foo :
  Resp.decodeCommand (request_of ["GET"; "foo"]) = Returns ["GET"; "foo"].
Proof. reflexivity. Qed.

Example decode_no_star : Resp.decodeCommand "GET foo" = Returns [].
Proof. reflexivity. Qed.

Example records_of_file :
  Log.records
    ("a" +:+ String TAB ("1" +:+ String LF ("b" +:+ String TAB "2")))
  = [("a", "1"); ("b", "2")].
Proof. reflexivity. Qed.

Example set_get_del_get :
  fst <$> serve 3
    [request_of ["SET"; "foo"; "bar"]; request_of ["GET"; "foo"];
     request_of ["DEL"; "foo"]; request_of ["GET"; "foo"]]
    (new None)
  = Returns ["+OK" +:+ CRLF; "$3" +:+ CRLF +:+ "bar" +:+ CRLF;
             ":1" +:+ CRLF; "$-1" +:+ CRLF].
Proof. vm_compute. reflexivity. Qed.

Example del_of_unknown_key :
  fst <$> serve 3 [request_of ["DEL"; "nope"]] (new None)
  = Returns [":0" +:+ CRLF].
Proof. vm_compute. reflexivity. Qed.

Example config_get_save :
  fst <$> serve 3 [request_of ["CONFIG"; "GET"; "save"]] (new None)
  = Returns ["*0" +:+ CRLF].
Proof. vm_compute. reflexivity. Qed.

Example verb_is_case_insensitive :
  fst <$> serve 3 [request_of ["set"; "k"; "v"]; request_of ["gEt"; "k"]]
    (new None)
  = Returns ["+OK" +:+ CRLF; "$1" +:+ CRLF +:+ "v" +:+ CRLF].
Proof. vm_compute. reflexivity. Qed.

Example wrong_arity :
  fst <$> serve 3 [request_of ["GET"]] (new None)
  = Returns ["-ERR Unknown command" +:+ CRLF].
Proof. vm_compute. reflexivity. Qed.

Example lru_order_after_touches :
  lru_keys
    (run 3 map_to_list [GET "a"; GET "a"; GET "b"; SET "c" "9"]
       (run 3 map_to_list [SET "a" "1"; SET "b" "2"] (new None)))
  = ["c"; "b"; "a"].
Proof. vm_compute. reflexivity. Qed.

(** Capacity 3, four keys: the first one is answered as absent before any
    flush, restored when the file was written while it was resident, and
    absent again when the file was written after its eviction. *)
Example evicted_before_any_flush :
  (get 3 "a"
     (run 3 map_to_list
        [SET "a" "1"; SET "b" "2"; SET "c" "3"; SET "d" "4"] (new None))).1
  = "NULL".
Proof. vm_compute. reflexivity. Qed.

Example evicted_after_flush_while_resident :
  (get 3 "a"
     (run 3 map_to_list
        [SET "a" "1"; SET "b" "2"; SET "c" "3"; TICK IoOk; SET "d" "4"]
        (new None))).1
  = "1".
Proof. vm_compute. reflexivity. Qed.

Example evicted_then_flushed :
  (get 3 "a"
     (run 3 map_to_list
        [SET "a" "1"; SET "b" "2"; SET "c" "3"; TICK IoOk; SET "d" "4";
         TICK IoOk]
        (new None))).1
  = "NULL".
Proof. vm_compute. reflexivity. Qed.

(** The same with a [DEL] of the evicted key: it is answered as not
    deleted, and the key is read back all the same. *)
Example del_of_evicted_key :
  let db :=
    run 3 map_to_list
      [SET "a" "1"; SET "b" "2"; SET "c" "3"; TICK IoOk; SET "d" "4"]
      (new None) in
  (del "a" db).1 = false
  /\ evicted_keys (del "a" db).2 !! "a" = Some true
  /\ (get 3 "a" (del "a" db).2).1 = "1".
Proof. vm_compute. done. Qed.

Example miss_leaves_the_marker :
  let db :=
    run 3 map_to_list
      [SET "a" "1"; SET "b" "2"; SET "c" "3"; SET "d" "4"] (new None) in
  evicted_keys db !! "a" = Some true
  /\ get 3 "a" db = ("NULL", db).
Proof. vm_compute. done. Qed.

Example failed_flush_is_not_retried :
  let db := flush_tick map_to_list IoOpenFails (set 3 "a" "1" (new None)) in
  dirty db = false
  /\ file db = None
  /\ flush_tick map_to_list IoOk db = db.
Proof. vm_compute. done. Qed.

Example restart_loads_the_file :
  let f := Some ("a" +:+ String TAB ("1" +:+ String LF EmptyString)) in
  (get 3 "a" (new f)).1 = "1" /\ lru_keys (new f) = ["a"].
Proof. vm_compute. done. Qed.

(** A file that is not loadable, written by the engine itself: the
    value of ["a"] has a newline in it and reads back as a second record
    for ["a"], so that after a restart the LRU list has the key twice.
    Capacity 2: once ["b"] is set, ["a"] is evicted and a node for it
    stays in the list; [get] of ["a"] restores it from the file and
    [updateLRU] evicts it again in the same call. *)
Example restored_key_can_evict_itself :
  let db1 :=
    run 2 map_to_list
      [SET "a" ("1" +:+ String LF ("a" +:+ String TAB "2")); TICK IoOk]
      (new None) in
  let db := set 2 "b" "3" (new (file db1)) in
  lru_keys (new (file db1)) = ["a"; "a"]
  /\ store db !! "a" = None
  /\ evicted_keys db !! "a" = Some true
  /\ Log.lookup "a" (file db) = Some "1"
  /\ store (get 2 "a" db).2 !! "a" = None
  /\ evicted_keys (get 2 "a" db).2 !! "a" = Some true.
Proof. vm_compute. done. Qed.

(** The same at capacity 2 for a resident key: the file has three
    records, and [get] of a resident key evicts another one. *)
Example resident_get_can_evict :
  let db1 :=
    run 2 map_to_list
      [SET "a" ("1" +:+ String LF ("b" +:+ String TAB ("2" +:+ String LF
                  ("c" +:+ String TAB "3")))); TICK IoOk]
      (new None) in
  let db := new (file db1) in
  lru_keys db = ["c"; "b"; "a"]
  /\ (get 2 "a" db).1 = "1"
  /\ lru_keys (get 2 "a" db).2 = ["a"; "c"]
  /\ evicted_keys (get 2 "a" db).2 !! "b" = Some true
  /\ dirty (get 2 "a" db).2 = true.
Proof. vm_compute. done. Qed.

End Tests.

(** * More of the code *)

(** ** The engine *)

Module EngineExtras.
Import Engine Lifecycle LruFacts LogFacts ScenarioFacts.
Local Close Scope Z_scope.

Section EngineExtras.

Variable N : nat.
Variable iteration : gmap string string -> list (string * string).
Hypothesis HN : 0 < N.

Lemma wf_size (db : BlinkDB) :
  wf N db ->
  size (store db) = length (lru_keys db)
  /\ (forall k, k ∈ lru_keys db <-> is_Some (store db !! k)).
Proof.
  intros [(Hnd & Hmap & Hlen) Hdom]. split.
  - rewrite <- size_dom, Hdom, Hmap. by apply size_list_to_set.
  - intros k. rewrite <- elem_of_dom, Hdom, Hmap. by rewrite elem_of_list_to_set.
Qed.

Lemma wf_set_fields (key value : string) (db : BlinkDB) :
  wf N db ->
  ((is_Some (store db !! key) \/ length (lru_keys db) < N)
   /\ store (set N key value db) = <[key:=value]> (store db)
   /\ lru_keys (set N key value db) = key :: erase_first key (lru_keys db)
   /\ evicted_keys (set N key value db) = evicted_keys db)
  \/ (store db !! key = None
      /\ length (lru_keys db) = N
      /\ exists l' e,
           lru_keys db = l' ++ [e]
           /\ e <> key
           /\ is_Some (store db !! e)
           /\ store (set N key value db)
              = <[key:=value]> (delete e (store db))
           /\ lru_keys (set N key value db) = key :: l'
           /\ evicted_keys (set N key value db)
              = <[e:=true]> (evicted_keys db)).
Proof.
  intros Hwf. pose proof Hwf as [Hok Hdom].
  destruct (wf_size db Hwf) as [Hsize Hkeys]. unfold set.
  destruct (updateLRU_cases N HN key db Hok)
    as [[Hlen ->] | (l' & e & Hl & Hne & Hnew & Hlen & ->)]; simpl.
  - left. split_and!; try done.
    destruct (decide (key ∈ lru_keys db)) as [Hin|Hout].
    + left. by apply Hkeys.
    + right. rewrite erase_first_absent in Hlen by done. simpl in Hlen. lia.
  - right. split_and!; [| done |].
    + apply eq_None_not_Some. by rewrite <- Hkeys.
    + exists l', e.
      assert (is_Some (store db !! e)) as He.
      { apply Hkeys. rewrite Hl. set_solver. }
      destruct (decide (is_Some (store db !! e))); [|done].
      by split_and!.
Qed.

Lemma wf_del_fields (key : string) (db : BlinkDB) :
  wf N db ->
  ((del key db).1 = true <-> is_Some (store db !! key))
  /\ store (del key db).2 = delete key (store db)
  /\ lru_keys (del key db).2 = erase_first key (lru_keys db)
  /\ evicted_keys (del key db).2 = evicted_keys db
  /\ file (del key db).2 = file db
  /\ (store db !! key = None -> (del key db).2 = db)
  /\ (evicted_keys db !! key = None ->
      (get N key (del key db).2).1 = "NULL").
Proof.
  intros Hwf. destruct (wf_size db Hwf) as [_ Hkeys].
  destruct Hwf as [(Hnd & Hmap & Hlen) Hdom]. unfold del.
  destruct (store db !! key) as [v|] eqn:Hst; simpl.
  - assert (key ∈ lru_map db) as Hin.
    { rewrite <- Hdom. apply elem_of_dom. eauto. }
    unfold unlink. destruct (decide (key ∈ lru_map db)); [|done]. simpl.
    split_and!; [split; eauto | done | done | done | done | done |].
    intros Hev. unfold get. simpl. rewrite lookup_delete_eq, Hev.
    by destruct (decide (is_Some (@None bool))) as [[? ?]|_].
  - assert (key ∉ lru_keys db) as Hout.
    { rewrite Hkeys, Hst. by intros [? ?]. }
    split_and!; [split; [done | by intros [? ?]] | by rewrite delete_id
                | by rewrite erase_first_absent | done | done | done |].
    intros Hev. unfold get. rewrite Hst, Hev.
    by destruct (decide (is_Some (@None bool))) as [[? ?]|_].
Qed.

Lemma wf_restore_fields (key value : string) (db : BlinkDB) :
  wf N db ->
  store db !! key = None ->
  is_Some (evicted_keys db !! key) ->
  Log.lookup key (file db) = Some value ->
  (length (lru_keys db) < N
   /\ store (get N key db).2 = <[key:=value]> (store db)
   /\ lru_keys (get N key db).2 = key :: lru_keys db
   /\ evicted_keys (get N key db).2 = delete key (evicted_keys db)
   /\ dirty (get N key db).2 = dirty db)
  \/ (length (lru_keys db) = N
      /\ exists l' e,
           lru_keys db = l' ++ [e]
           /\ e <> key
           /\ store (get N key db).2
              = delete e (<[key:=value]> (store db))
           /\ lru_keys (get N key db).2 = key :: l'
           /\ evicted_keys (get N key db).2
              = <[e:=true]> (delete key (evicted_keys db))
           /\ dirty (get N key db).2 = true).
Proof.
  intros Hwf Hst Hmark Hhit. destruct (wf_size db Hwf) as [_ Hkeys].
  destruct Hwf as [Hok Hdom]. unfold get. rewrite Hst.
  destruct (decide (is_Some (evicted_keys db !! key))); [|done].
  assert (key ∉ lru_keys db) as Hnew.
  { rewrite Hkeys, Hst. by intros [? ?]. }
  assert (store (restoreFromDisk key db) !! key = Some value) as ->.
  { unfold restoreFromDisk. rewrite Hhit. simpl. apply lookup_insert_eq. }
  simpl. rewrite (updateLRU_restored N HN key value) by (done || apply Hok).
  set (db2 := with_evicted_keys (delete key) (with_store (insert key value) db)).
  assert (lru_ok N db2) as Hok2 by done.
  destruct (updateLRU_cases N HN key db2 Hok2)
    as [[Hlen ->] | (l' & e & Hl & Hne & _ & Hlen & ->)]; simpl in *.
  - left. rewrite erase_first_absent in * by done. simpl in Hlen.
    split_and!; [lia | done..].
  - right. split; [done|]. exists l', e.
    assert (is_Some (<[key:=value]> (store db) !! e)) as He.
    { rewrite lookup_insert_ne by done. apply Hkeys. rewrite Hl. set_solver. }
    destruct (decide (is_Some (<[key:=value]> (store db) !! e))); [|done].
    by split_and!.
Qed.

End EngineExtras.

(** X1.  In an engine that was constructed without a persistence file or
    from a loadable one, and then driven by any requests and flush
    rounds, the resident map never holds more than the capacity, the LRU
    list has every resident key exactly once and nothing else. *)
Theorem capacity_is_kept (N : nat)
    (iteration : gmap string string -> list (string * string))
    (HN : 0 < N) (f : option string) (rs : list request) :
  loadable N f ->
  let db := run N iteration rs (new f) in
  size (store db) <= N
  /\ NoDup (lru_keys db)
  /\ length (lru_keys db) = size (store db)
  /\ (forall k, k ∈ lru_keys db <-> is_Some (store db !! k)).
Proof.
  intros Hf db.
  assert (wf N db) as Hwf by (by apply wf_from_new).
  destruct (wf_size N db Hwf) as [Hsize Hkeys].
  destruct Hwf as [(Hnd & _ & Hlen) _].
  split_and!; [lia | done | done | done].
Qed.

Lemma capacity_is_kept_witness :
  0 < 2
  /\ loadable 2 None
  /\ (let db :=
        run 2 map_to_list [SET "a" "1"; SET "b" "2"; SET "c" "3"; GET "a"]
          (new None) in
      size (store db) <= 2
      /\ NoDup (lru_keys db)
      /\ length (lru_keys db) = size (store db)
      /\ (forall k, k ∈ lru_keys db <-> is_Some (store db !! k))).
Proof.
  assert (0 < 2) as HN by lia.
  split; [exact HN|]. split; [exact I|].
  exact (capacity_is_kept 2 map_to_list HN None
           [SET "a" "1"; SET "b" "2"; SET "c" "3"; GET "a"] I).
Defined.

(** X2.  In such an engine, a [get] right after [set key value] returns
    [value], and after either of them the key is at the front of the LRU
    list. *)
Theorem get_after_set (N : nat)
    (iteration : gmap string string -> list (string * string))
    (HN : 0 < N) (f : option string) (rs : list request)
    (key value : string) :
  loadable N f ->
  let db := run N iteration rs (new f) in
  store (set N key value db) !! key = Some value
  /\ head (lru_keys (set N key value db)) = Some key
  /\ (get N key (set N key value db)).1 = value
  /\ head (lru_keys (get N key (set N key value db)).2) = Some key.
Proof.
  intros Hf db.
  assert (wf N db) as Hwf by (by apply wf_from_new).
  assert (wf N (set N key value db)) as Hwf' by (by apply wf_set).
  pose proof (set_store N key value db) as Hst.
  assert (head (lru_keys (set N key value db)) = Some key) as Hfront.
  { destruct (wf_set_fields N HN key value db Hwf)
      as [(_ & _ & -> & _) | (_ & _ & l' & e & _ & _ & _ & _ & -> & _)];
      done. }
  rewrite (get_resident N HN key value _ Hwf' Hst).
  by split_and!.
Qed.

Lemma get_after_set_witness :
  0 < 1
  /\ loadable 1 None
  /\ (let db := run 1 map_to_list [SET "a" "1"] (new None) in
      store (set 1 "b" "2" db) !! "b" = Some "2"
      /\ head (lru_keys (set 1 "b" "2" db)) = Some "b"
      /\ (get 1 "b" (set 1 "b" "2" db)).1 = "2"
      /\ head (lru_keys (get 1 "b" (set 1 "b" "2" db)).2) = Some "b").
Proof.
  assert (0 < 1) as HN by lia.
  split; [exact HN|]. split; [exact I|].
  exact (get_after_set 1 map_to_list HN None [SET "a" "1"] "b" "2" I).
Defined.

(** X3.  In such an engine, [set] of a key that is resident, or while
    there is room, stores the pair, moves the key to the front and evicts
    nothing; [set] of a new key in a full engine evicts exactly the key at
    the back of the LRU list, which is another key, and marks it. *)
Theorem set_evicts_the_lru_tail (N : nat)
    (iteration : gmap string string -> list (string * string))
    (HN : 0 < N) (f : option string) (rs : list request)
    (key value : string) :
  loadable N f ->
  let db := run N iteration rs (new f) in
  ((is_Some (store db !! key) \/ length (lru_keys db) < N)
   /\ store (set N key value db) = <[key:=value]> (store db)
   /\ lru_keys (set N key value db) = key :: erase_first key (lru_keys db)
   /\ evicted_keys (set N key value db) = evicted_keys db)
  \/ (store db !! key = None
      /\ length (lru_keys db) = N
      /\ exists l' e,
           lru_keys db = l' ++ [e]
           /\ e <> key
           /\ is_Some (store db !! e)
           /\ store (set N key value db)
              = <[key:=value]> (delete e (store db))
           /\ lru_keys (set N key value db) = key :: l'
           /\ evicted_keys (set N key value db)
              = <[e:=true]> (evicted_keys db)).
Proof.
  intros Hf db. apply wf_set_fields; [done|]. by apply wf_from_new.
Qed.

Lemma set_evicts_the_lru_tail_witness :
  0 < 2
  /\ loadable 2 None
  /\ (let db := run 2 map_to_list [SET "a" "1"; SET "b" "2"] (new None) in
      ((is_Some (store db !! "c") \/ length (lru_keys db) < 2)
       /\ store (set 2 "c" "3" db) = <["c":="3"]> (store db)
       /\ lru_keys (set 2 "c" "3" db) = "c" :: erase_first "c" (lru_keys db)
       /\ evicted_keys (set 2 "c" "3" db) = evicted_keys db)
      \/ (store db !! "c" = None
          /\ length (lru_keys db) = 2
          /\ exists l' e,
               lru_keys db = l' ++ [e]
               /\ e <> "c"
               /\ is_Some (store db !! e)
               /\ store (set 2 "c" "3" db)
                  = <["c":="3"]> (delete e (store db))
               /\ lru_keys (set 2 "c" "3" db) = "c" :: l'
               /\ evicted_keys (set 2 "c" "3" db)
                  = <[e:=true]> (evicted_keys db))).
Proof.
  assert (0 < 2) as HN by lia.
  split; [exact HN|]. split; [exact I|].
  exact (set_evicts_the_lru_tail 2 map_to_list HN None
           [SET "a" "1"; SET "b" "2"] "c" "3" I).
Defined.

(** X4.  In such an engine, [del] answers true exactly for a resident
    key, takes the key out of the resident map and of the LRU list, and
    touches neither the eviction markers nor the file; for a key that is
    not resident it changes nothing.  When the key has no marker, the
    [get] that follows answers as for an absent key. *)
Theorem del_removes_the_resident_key (N : nat)
    (iteration : gmap string string -> list (string * string))
    (HN : 0 < N) (f : option string) (rs : list request) (key : string) :
  loadable N f ->
  let db := run N iteration rs (new f) in
  ((del key db).1 = true <-> is_Some (store db !! key))
  /\ store (del key db).2 = delete key (store db)
  /\ lru_keys (del key db).2 = erase_first key (lru_keys db)
  /\ evicted_keys (del key db).2 = evicted_keys db
  /\ file (del key db).2 = file db
  /\ (store db !! key = None -> (del key db).2 = db)
  /\ (evicted_keys db !! key = None ->
      (get N key (del key db).2).1 = "NULL").
Proof.
  intros Hf db. apply wf_del_fields. by apply wf_from_new.
Qed.

Lemma del_removes_the_resident_key_witness :
  0 < 2
  /\ loadable 2 None
  /\ (let db := run 2 map_to_list [SET "a" "1"; SET "b" "2"] (new None) in
      ((del "a" db).1 = true <-> is_Some (store db !! "a"))
      /\ store (del "a" db).2 = delete "a" (store db)
      /\ lru_keys (del "a" db).2 = erase_first "a" (lru_keys db)
      /\ evicted_keys (del "a" db).2 = evicted_keys db
      /\ file (del "a" db).2 = file db
      /\ (store db !! "a" = None -> (del "a" db).2 = db)
      /\ (evicted_keys db !! "a" = None ->
          (get 2 "a" (del "a" db).2).1 = "NULL")).
Proof.
  assert (0 < 2) as HN by lia.
  split; [exact HN|]. split; [exact I|].
  exact (del_removes_the_resident_key 2 map_to_list HN None
           [SET "a" "1"; SET "b" "2"] "a" I).
Defined.

(** X5.  In such an engine, a [get] of a key that is marked as evicted,
    not resident, and has a record in the file returns the value of the
    first such record, makes the key resident with that value at the
    front of the LRU list and drops its marker.  While there is room that
    is all, and [dirty] is left as it was; in a full engine the key at
    the back of the LRU list is evicted and marked in the same call, and
    [dirty] is set. *)
Theorem get_restores_and_may_evict (N : nat)
    (iteration : gmap string string -> list (string * string))
    (HN : 0 < N) (f : option string) (rs : list request)
    (key value : string) :
  loadable N f ->
  let db := run N iteration rs (new f) in
  store db !! key = None ->
  is_Some (evicted_keys db !! key) ->
  Log.lookup key (file db) = Some value ->
  (get N key db).1 = value
  /\ ((length (lru_keys db) < N
       /\ store (get N key db).2 = <[key:=value]> (store db)
       /\ lru_keys (get N key db).2 = key :: lru_keys db
       /\ evicted_keys (get N key db).2 = delete key (evicted_keys db)
       /\ dirty (get N key db).2 = dirty db)
      \/ (length (lru_keys db) = N
          /\ exists l' e,
               lru_keys db = l' ++ [e]
               /\ e <> key
               /\ store (get N key db).2
                  = delete e (<[key:=value]> (store db))
               /\ lru_keys (get N key db).2 = key :: l'
               /\ evicted_keys (get N key db).2
                  = <[e:=true]> (delete key (evicted_keys db))
               /\ dirty (get N key db).2 = true)).
Proof.
  intros Hf db Hst Hmark Hhit.
  assert (wf N db) as Hwf by (by apply wf_from_new).
  split.
  - by destruct (get_hit N HN key value db Hwf Hst Hmark Hhit) as [Hval _].
  - by apply wf_restore_fields.
Qed.

Lemma get_restores_and_may_evict_witness :
  0 < 1
  /\ loadable 1 None
  /\ (let db :=
        run 1 map_to_list [SET "a" "1"; TICK IoOk; SET "b" "2"] (new None) in
      store db !! "a" = None
      /\ is_Some (evicted_keys db !! "a")
      /\ Log.lookup "a" (file db) = Some "1"
      /\ (get 1 "a" db).1 = "1"
      /\ ((length (lru_keys db) < 1
           /\ store (get 1 "a" db).2 = <["a":="1"]> (store db)
           /\ lru_keys (get 1 "a" db).2 = "a" :: lru_keys db
           /\ evicted_keys (get 1 "a" db).2 = delete "a" (evicted_keys db)
           /\ dirty (get 1 "a" db).2 = dirty db)
          \/ (length (lru_keys db) = 1
              /\ exists l' e,
                   lru_keys db = l' ++ [e]
                   /\ e <> "a"
                   /\ store (get 1 "a" db).2
                      = delete e (<["a":="1"]> (store db))
                   /\ lru_keys (get 1 "a" db).2 = "a" :: l'
                   /\ evicted_keys (get 1 "a" db).2
                      = <[e:=true]> (delete "a" (evicted_keys db))
                   /\ dirty (get 1 "a" db).2 = true))).
Proof.
  assert (0 < 1) as HN by lia.
  split; [exact HN|]. split; [exact I|]. intros db.
  assert (store db !! "a" = None) as Hst by (vm_compute; reflexivity).
  assert (is_Some (evicted_keys db !! "a")) as Hmark
    by (exists true; vm_compute; reflexivity).
  assert (Log.lookup "a" (file db) = Some "1") as Hhit
    by (vm_compute; reflexivity).
  split; [exact Hst|]. split; [exact Hmark|]. split; [exact Hhit|].
  exact (get_restores_and_may_evict 1 map_to_list HN None
           [SET "a" "1"; TICK IoOk; SET "b" "2"] "a" "1" I Hst Hmark Hhit).
Defined.

End EngineExtras.

(** ** The persistence file and the restart *)

Module FileExtras.
Import Str Log Engine Lifecycle LruFacts LogFacts ScenarioFacts.
Local Close Scope Z_scope.

Lemma free_of_snoc (c x : ascii) (s : string) :
  free_of c (s +:+ String x EmptyString)
  = (free_of c s && negb (Ascii.eqb x c))%bool.
Proof.
  induction s as [|y s IH].
  - rewrite append_nil_l. simpl. by rewrite andb_true_r.
  - rewrite append_cons. simpl. rewrite IH. by rewrite andb_assoc.
Qed.

(** Whatever the file holds, a key that is read has no tab and a value
    that is read has no newline. *)
Lemma read_representable (s : string) :
  (forall key, free_of TAB key = true ->
               Forall representable (read_key s key))
  /\ (forall key value,
        free_of TAB key = true -> free_of LF value = true ->
        Forall representable (read_value key s value)).
Proof.
  induction s as [|c s [IHk IHv]]; split; simpl.
  - constructor.
  - intros key value Hk Hv.
    destruct (String.eqb value EmptyString); repeat constructor; done.
  - intros key Hk. destruct (Ascii.eqb c TAB) eqn:Hc.
    + by apply IHv.
    + apply IHk. by rewrite free_of_snoc, Hk, Hc.
  - intros key value Hk Hv. destruct (Ascii.eqb c LF) eqn:Hc.
    + constructor; [done|]. by apply IHk.
    + apply IHv; [done|]. by rewrite free_of_snoc, Hv, Hc.
Qed.

Lemma records_representable (content : string) :
  Forall representable (records content).
Proof. by apply read_representable. Qed.

Lemma first_match_list_to_map (key : string) (l : list (string * string)) :
  first_match key l = (list_to_map l : gmap string string) !! key.
Proof.
  induction l as [|[k v] l IH]; [done|]. simpl.
  destruct (String.eqb_spec k key) as [->|Hne].
  - by rewrite lookup_insert_eq.
  - by rewrite lookup_insert_ne.
Qed.

(** The engine after the loop of [loadFromFile] over [recs]. *)
Lemma load_records_store (recs : list (string * string)) (db : BlinkDB) :
  store (fold_left load_record recs db)
  = list_to_map (reverse recs) ∪ store db
  /\ evicted_keys (fold_left load_record recs db) = evicted_keys db
  /\ dirty (fold_left load_record recs db) = dirty db
  /\ file (fold_left load_record recs db) = file db.
Proof.
  revert db. induction recs as [|[k v] recs IH]; intros db; simpl.
  - by rewrite (left_id_L ∅ (∪)).
  - destruct (IH (load_record db (k, v))) as (-> & -> & -> & ->).
    split_and!; try done. unfold load_record; simpl.
    rewrite reverse_cons, list_to_map_app. simpl.
    rewrite <- (assoc_L (∪)). f_equal.
    rewrite insert_empty. by rewrite <- insert_union_singleton_l.
Qed.

(** X6.  What [persistToFile] writes for a list of records reads back, by
    the loop of [loadFromFile] and [restoreFromDisk], as the same list
    exactly when no key has a tab and no value a newline. *)
Theorem file_round_trip_iff (l : list (string * string)) :
  records (write_records l) = l <-> Forall representable l.
Proof.
  split.
  - intros <-. apply records_representable.
  - apply records_write_records.
Qed.

(** X7.  The constructor loads every record of the file in file order:
    the LRU list is the keys of the records, the last one at the front
    and a key as often as it has records, nothing is marked, the engine
    is clean, and for a key with several records the value of the last
    one is the resident one (where [restoreFromDisk] takes the first). *)
Theorem constructor_loads_every_record (content : string) (key : string) :
  let db := new (Some content) in
  lru_keys db = reverse (records content).*1
  /\ store db !! key = first_match key (reverse (records content))
  /\ evicted_keys db = ∅
  /\ dirty db = false
  /\ file db = Some content.
Proof.
  unfold new, loadFromFile, members_init. simpl.
  destruct (load_records_store (records content)
              (mkBlinkDB ∅ [] ∅ ∅ false (Some content)))
    as (Hst & Hev & Hd & Hf).
  destruct (load_records 1 Nat.lt_0_1 (records content)
              (mkBlinkDB ∅ [] ∅ ∅ false (Some content))) as (Hl & _ & _).
  rewrite Hl, Hst, Hev, Hd, Hf. simpl.
  rewrite app_nil_r, (right_id_L (∅ : gmap string string) (∪)).
  split_and!; try done. by rewrite first_match_list_to_map.
Qed.

Section Restart.

Variable N : nat.
Variable iteration : gmap string string -> list (string * string).
Hypothesis iteration_perm : forall m, iteration m ≡ₚ map_to_list m.

Lemma iteration_representable (m : gmap string string) :
  map_Forall (fun k v => representable (k, v)) m ->
  Forall representable (iteration m).
Proof.
  intros Hm. apply Forall_forall. intros [k v] Hin.
  rewrite iteration_perm in Hin. apply elem_of_map_to_list in Hin.
  by apply (Hm k v).
Qed.

Lemma list_to_map_iteration (m : gmap string string) :
  list_to_map (reverse (iteration m)) = m.
Proof.
  rewrite <- (list_to_map_to_list m) at 2.
  apply list_to_map_proper.
  - rewrite fmap_reverse, reverse_Permutation, iteration_perm.
    apply NoDup_fst_map_to_list.
  - by rewrite reverse_Permutation, iteration_perm.
Qed.

(** The engine that the constructor builds from what a flush wrote. *)
Lemma restart_after_flush (db : BlinkDB) :
  map_Forall (fun k v => representable (k, v)) (store db) ->
  let db' := new (file (persistToFile iteration IoOk db)) in
  store db' = store db
  /\ lru_keys db' = reverse (iteration (store db)).*1
  /\ evicted_keys db' = ∅
  /\ dirty db' = false.
Proof.
  intros Hrep. simpl.
  unfold new, loadFromFile, members_init. simpl.
  rewrite records_write_records by (by apply iteration_representable).
  match goal with
  | |- context [fold_left load_record ?r ?d] =>
      destruct (load_records_store r d) as (Hst & Hev & Hd & _);
      destruct (load_records 1 Nat.lt_0_1 r d) as (Hl & _ & _)
  end.
  rewrite Hl, Hst, Hev, Hd. simpl.
  rewrite app_nil_r, (right_id_L (∅ : gmap string string) (∪)),
    list_to_map_iteration.
  by split_and!.
Qed.

End Restart.

(** X8.  When no resident key has a tab and no resident value a newline,
    the engine that the constructor builds from the file of a flush that
    succeeded has the same resident map; its LRU list is the keys in the
    reverse of the order in which the flush wrote them, it has no
    markers, and it is clean. *)
Theorem flush_then_restart (iteration : gmap string string -> list (string * string))
    (iteration_perm : forall m, iteration m ≡ₚ map_to_list m)
    (db : BlinkDB) :
  map_Forall (fun k v => representable (k, v)) (store db) ->
  let db' := new (file (persistToFile iteration IoOk db)) in
  store db' = store db
  /\ lru_keys db' = reverse (iteration (store db)).*1
  /\ evicted_keys db' = ∅
  /\ dirty db' = false.
Proof. by apply restart_after_flush. Qed.

Lemma flush_then_restart_witness :
  (forall m : gmap string string, map_to_list m ≡ₚ map_to_list m)
  /\ (let db := set 2 "b" "2" (set 2 "a" "1" (new None)) in
      map_Forall (fun k v => representable (k, v)) (store db)
      /\ (let db' := new (file (persistToFile map_to_list IoOk db)) in
          store db' = store db
          /\ lru_keys db' = reverse (map_to_list (store db)).*1
          /\ evicted_keys db' = ∅
          /\ dirty db' = false)).
Proof.
  assert (forall m : gmap string string, map_to_list m ≡ₚ map_to_list m)
    as Hperm by (intros m; reflexivity).
  split; [exact Hperm|]. intros db.
  assert (map_Forall (fun k v => representable (k, v)) (store db)) as Hrep.
  { apply map_Forall_to_list.
    vm_compute. repeat constructor. }
  split; [exact Hrep|].
  exact (flush_then_restart map_to_list Hperm db Hrep).
Defined.

Section Durable.

Variable N : nat.
Variable iteration : gmap string string -> list (string * string).
Hypothesis HN : 0 < N.
Hypothesis iteration_perm : forall m, iteration m ≡ₚ map_to_list m.









End Durable.



End FileExtras.

(** ** The decoder on well-formed frames *)

Module DecodeFacts.
Import Str Resp LogFacts.

Lemma length_append (a b : string) :
  String.length (a +:+ b) = (String.length a + String.length b)%nat.
Proof.
  induction a as [|c a IH]; [done|]. rewrite append_cons. simpl. by rewrite IH.
Qed.

Lemma size_append (a b : string) : size (a +:+ b) = size a + size b.
Proof. unfold size. rewrite length_append. lia. Qed.

Lemma size_nonneg (a : string) : 0 <= size a.
Proof. unfold size. lia. Qed.

Lemma drop_append (a b : string) : drop (String.length a) (a +:+ b) = b.
Proof. induction a as [|c a IH]; [by destruct b | by rewrite append_cons]. Qed.

Lemma get_append (a b : string) (c : ascii) :
  String.get (String.length a) (a +:+ String c b) = Some c.
Proof. induction a as [|x a IH]; [done | by rewrite append_cons]. Qed.

Lemma substring_prefix (d b : string) :
  String.substring 0 (String.length d) (d +:+ b) = d.
Proof.
  induction d as [|c d IH].
  - by destruct b.
  - rewrite append_cons. simpl. by rewrite IH.
Qed.

Lemma substring_append (a d b : string) :
  String.substring (String.length a) (String.length d) (a +:+ d +:+ b) = d.
Proof.
  induction a as [|c a IH].
  - rewrite append_nil_l. apply substring_prefix.
  - rewrite append_cons. simpl. apply IH.
Qed.

(** In a frame, the position of [s] after [pre]. *)
Lemma at_append (pre rest : string) (c : ascii) :
  at_ (pre +:+ String c rest) (size pre) = c.
Proof.
  unfold at_, size. by rewrite Nat2Z.id, get_append.
Qed.

Lemma substr_append (pre d rest : string) :
  substr (pre +:+ d +:+ rest) (size pre) (size d) = d.
Proof.
  unfold substr. rewrite !size_append.
  replace (Z.min (size d) (size pre + (size d + size rest) - size pre))
    with (size d) by (pose proof (size_nonneg rest); lia).
  unfold size. rewrite !Nat2Z.id. apply substring_append.
Qed.

Lemma prefix_crlf (rest : string) :
  String.prefix CRLF (String CR (String LF rest)) = true.
Proof. simpl. by destruct rest. Qed.

Lemma find_at_crlf (d rest : string) (off : Z) :
  Log.free_of CR d = true ->
  find_at CRLF (d +:+ CRLF +:+ rest) off = Some (off + size d).
Proof.
  revert off. induction d as [|c d IH]; intros off Hd.
  - rewrite append_nil_l.
    change (CRLF +:+ rest) with (String CR (String LF rest)).
    cbn [find_at]. rewrite prefix_crlf. unfold size. simpl. f_equal. lia.
  - simpl in Hd. apply andb_true_iff in Hd as [Hc Hd].
    apply negb_true_iff, Ascii.eqb_neq in Hc.
    rewrite append_cons. cbn [find_at].
    assert (String.prefix CRLF (String c (d +:+ CRLF +:+ rest)) = false) as ->.
    { unfold CRLF. cbn [String.prefix].
      destruct (Ascii.ascii_dec CR c) as [E|E]; [congruence | done]. }
    rewrite IH by done. unfold size. simpl String.length. f_equal. lia.
Qed.

Lemma find_crlf (pre d rest : string) :
  Log.free_of CR d = true ->
  find (pre +:+ d +:+ CRLF +:+ rest) CRLF (size pre)
  = Some (size pre + size d).
Proof.
  intros Hd. unfold find. rewrite !size_append.
  destruct (size pre + (size d + (size CRLF + size rest)) <? size pre) eqn:E.
  { apply Z.ltb_lt in E. pose proof (size_nonneg d).
    pose proof (size_nonneg rest). pose proof (size_nonneg CRLF). lia. }
  unfold size at 1. rewrite Nat2Z.id, drop_append. by apply find_at_crlf.
Qed.

Lemma wrap_small (z : Z) : 0 <= z <= Stoi.INT_MAX -> wrap z = z.
Proof.
  intros Hz. unfold wrap. apply Z.mod_small. unfold Stoi.INT_MAX in Hz. lia.
Qed.

(** *** [std::to_string] and [std::stoi] *)

Lemma digit_char (d : N) :
  (d < 10)%N -> Stoi.digit (pretty_N_char d) = Some (Z.of_N d).
Proof.
  intros Hd.
  destruct d as [|p]; [done|].
  do 4 (destruct p as [p|p|]; try done); lia.
Qed.

Lemma digit_plain (c : ascii) (d : Z) :
  Stoi.digit c = Some d ->
  Stoi.isspace c = false
  /\ Ascii.eqb c Stoi.minus = false
  /\ Ascii.eqb c Stoi.plus = false
  /\ Ascii.eqb c CR = false.
Proof.
  destruct c as [b0 b1 b2 b3 b4 b5 b6 b7].
  destruct b0, b1, b2, b3, b4, b5, b6, b7; try discriminate; done.
Qed.

(** The digits that [pretty] puts in front of [s] for a positive [x]. *)
Lemma pretty_go_spec (x : N) :
  (0 < x)%N ->
  forall s, exists c r (k : nat),
    pretty_N_go x s = String c r
    /\ is_Some (Stoi.digit c)
    /\ Log.free_of CR (pretty_N_go x s) = Log.free_of CR s
    /\ forall acc,
         Stoi.digits (pretty_N_go x s) acc
         = Stoi.digits s (Some (default 0 acc * 10 ^ Z.of_nat k + Z.of_N x)).
Proof.
  induction x as [x IH] using (well_founded_induction N.lt_wf_0).
  intros Hx s. rewrite pretty_N_go_step by done.
  assert (x `mod` 10 < 10)%N as Hd by (apply N.mod_lt; lia).
  pose proof (digit_char _ Hd) as Hdig.
  destruct (digit_plain _ _ Hdig) as (_ & _ & _ & Hcr).
  assert (Z.of_N x = 10 * Z.of_N (x `div` 10) + Z.of_N (x `mod` 10)) as Hdm.
  { rewrite <- (N2Z.inj_mul 10), <- N2Z.inj_add. f_equal.
    apply N.div_mod. lia. }
  destruct (decide (x `div` 10 = 0)%N) as [Hz|Hnz].
  - rewrite Hz, pretty_N_go_0. rewrite Hz in Hdm.
    exists (pretty_N_char (x `mod` 10)), s, 1%nat.
    split_and!; [done | by rewrite Hdig | by simpl; rewrite Hcr |].
    intros acc. simpl Stoi.digits. rewrite Hdig. do 2 f_equal. lia.
  - destruct (IH (x `div` 10)%N) with
      (s := String (pretty_N_char (x `mod` 10)) s)
      as (c & r & k & Heq & Hc & Hfree & Hdigits).
    { apply N.div_lt; lia. }
    { lia. }
    exists c, r, (S k). split_and!; [done | done | |].
    + rewrite Hfree. simpl. by rewrite Hcr.
    + intros acc. rewrite Hdigits. simpl Stoi.digits. rewrite Hdig.
      do 2 f_equal. rewrite Nat2Z.inj_succ, Z.pow_succ_r by lia.
      simpl default. lia.
Qed.

Lemma pretty_nat_spec (n : nat) :
  exists c r,
    pretty n = String c r
    /\ is_Some (Stoi.digit c)
    /\ Log.free_of CR (pretty n) = true
    /\ Stoi.digits (pretty n) None = Some (Z.of_nat n).
Proof.
  unfold pretty, pretty_nat, pretty, pretty_N.
  destruct (decide (N.of_nat n = 0)%N) as [Hz|Hnz].
  - exists "0"%char, EmptyString. split_and!; [done | by eexists | done |].
    assert (n = 0)%nat as -> by lia. reflexivity.
  - destruct (pretty_go_spec (N.of_nat n)) with (s := EmptyString)
      as (c & r & k & Heq & Hc & Hfree & Hdigits); [lia|].
    exists c, r. split_and!; [done | done | by rewrite Hfree |].
    rewrite Hdigits. simpl. f_equal. lia.
Qed.

(** [std::stoi(std::to_string(n))] is [n]. *)
Lemma stoi_pretty (n : nat) :
  Z.of_nat n <= Stoi.INT_MAX -> Stoi.stoi (pretty n) = Returns (Z.of_nat n).
Proof.
  intros Hn. destruct (pretty_nat_spec n) as (c & r & Heq & [d Hc] & _ & Hd).
  destruct (digit_plain c d Hc) as (Hsp & Hmi & Hpl & _).
  unfold Stoi.stoi. rewrite Heq in *. simpl Stoi.skip_space. rewrite Hsp.
  rewrite Hmi, Hpl, Hd.
  assert ((Stoi.INT_MIN <=? Z.of_nat n) && (Z.of_nat n <=? Stoi.INT_MAX)
          = true)%bool as ->; [|done].
  apply andb_true_iff. split; apply Z.leb_le; [|done].
  unfold Stoi.INT_MIN. lia.
Qed.

(** *** The loop of [decodeCommand] over the bulk strings of a frame *)

Import Scenario.

Lemma bind_returns {A B} (a : A) (f : A -> outcome B) :
  (Returns a ≫= f) = f a.
Proof. reflexivity. Qed.

Lemma decode_args_frame (args : list string) :
  forall (pre tail : string) (parsed : list string),
    size (pre +:+ bulks args +:+ tail) <= Stoi.INT_MAX ->
    decode_args (pre +:+ bulks args +:+ tail) (length args) (size pre) parsed
    = Returns (parsed ++ args).
Proof.
  induction args as [|a args IH]; intros pre tail parsed Hsz.
  - simpl. by rewrite app_nil_r.
  - set (D := pretty (String.length a)).
    set (R := bulks args +:+ tail).
    set (p1 := pre +:+ "$").
    set (p2 := p1 +:+ D +:+ CRLF).
    set (p3 := p2 +:+ a +:+ CRLF).
    remember (pre +:+ bulks (a :: args) +:+ tail) as raw eqn:Hraw.
    assert (raw = pre +:+ String Resp.dollar (D +:+ CRLF +:+ a +:+ CRLF +:+ R))
      as Hraw0.
    { subst raw. unfold bulks. simpl fold_right. fold (bulks args).
      unfold bulk. fold D. subst R. by rewrite !append_assoc. }
    assert (raw = p1 +:+ D +:+ CRLF +:+ (a +:+ CRLF +:+ R)) as Hraw1.
    { rewrite Hraw0. subst p1. by rewrite append_assoc. }
    assert (raw = p2 +:+ a +:+ (CRLF +:+ R)) as Hraw2.
    { rewrite Hraw1. subst p2. by rewrite !append_assoc. }
    assert (raw = p3 +:+ bulks args +:+ tail) as Hraw3.
    { rewrite Hraw2. subst p3 R. by rewrite !append_assoc. }
    assert (size p1 = size pre + 1) as Hp1
      by (subst p1; by rewrite size_append).
    assert (size p2 = size p1 + size D + 2) as Hp2.
    { subst p2. rewrite !size_append. change (size CRLF) with 2. lia. }
    assert (size p3 = size p2 + size a + 2) as Hp3.
    { subst p3. rewrite !size_append. change (size CRLF) with 2. lia. }
    assert (size raw = size p3 + size (bulks args) + size tail) as Hsize.
    { rewrite Hraw3, !size_append. lia. }
    pose proof (size_nonneg pre). pose proof (size_nonneg D).
    pose proof (size_nonneg a). pose proof (size_nonneg (bulks args)).
    pose proof (size_nonneg tail).
    destruct (pretty_nat_spec (String.length a))
      as (_ & _ & _ & _ & HfreeD & _). fold D in HfreeD.
    assert (at_ raw (size pre) = Resp.dollar) as Hat
      by (rewrite Hraw0; apply at_append).
    assert (find raw CRLF (size p1) = Some (size p1 + size D)) as Hfind
      by (rewrite Hraw1; by apply find_crlf).
    assert (substr raw (size p1) (size D) = D) as Hsub1
      by (rewrite Hraw1; apply substr_append).
    assert (substr raw (size p2) (size a) = a) as Hsub2
      by (rewrite Hraw2; apply substr_append).
    assert (Stoi.stoi D = Returns (size a)) as Hstoi.
    { subst D. apply stoi_pretty. fold (size a). lia. }
    cbn [decode_args length].
    assert ((size raw <=? size pre) = false) as -> by (apply Z.leb_gt; lia).
    rewrite Hat. change (eqb_char Resp.dollar Resp.dollar) with true.
    cbn [negb orb].
    rewrite (wrap_small (size pre + 1)) by lia. rewrite <- Hp1, Hfind.
    replace (size p1 + size D - size p1) with (size D) by lia.
    rewrite Hsub1, Hstoi, bind_returns.
    rewrite (wrap_small (size p1 + size D + 2)) by lia. rewrite <- Hp2.
    rewrite (wrap_small (size p2 + size a)) by lia.
    assert ((size raw <? size p2 + size a) = false) as ->
      by (apply Z.ltb_ge; lia).
    rewrite (wrap_small (size a)) by lia. rewrite Hsub2.
    rewrite (wrap_small (size p2 + (size a + 2))) by lia.
    replace (size p2 + (size a + 2)) with (size p3) by lia.
    rewrite Hraw3. rewrite IH by (rewrite <- Hraw3; by subst raw).
    by rewrite <- app_assoc.
Qed.

Lemma length_le_bulks (args : list string) :
  Z.of_nat (length args) <= size (bulks args).
Proof.
  induction args as [|a args IH]; [done|].
  unfold bulks. simpl fold_right. fold (bulks args). unfold bulk.
  rewrite !size_append. change (size "$") with 1.
  pose proof (size_nonneg (pretty (String.length a))).
  pose proof (size_nonneg a). pose proof (size_nonneg CRLF).
  simpl length. lia.
Qed.

Lemma decode_request (args : list string) (tail : string) :
  size (request_of args +:+ tail) <= Stoi.INT_MAX ->
  decodeCommand (request_of args +:+ tail) = Returns args.
Proof.
  intros Hsz.
  set (P := pretty (length args)).
  set (pre := "*" +:+ P +:+ CRLF).
  remember (request_of args +:+ tail) as raw eqn:Hraw.
  assert (raw = String Resp.star (P +:+ CRLF +:+ (bulks args +:+ tail)))
    as Hraw0.
  { subst raw. unfold request_of. fold (bulks args). fold P.
    by rewrite !append_assoc. }
  assert (raw = "*" +:+ P +:+ CRLF +:+ (bulks args +:+ tail)) as Hraw1
    by (by rewrite Hraw0).
  assert (raw = pre +:+ bulks args +:+ tail) as Hraw2.
  { rewrite Hraw1. subst pre. by rewrite !append_assoc. }
  assert (size pre = 1 + size P + 2) as Hpre.
  { subst pre. rewrite !size_append. change (size CRLF) with 2.
    change (size "*") with 1. lia. }
  assert (size raw = size pre + size (bulks args) + size tail) as Hsize.
  { rewrite Hraw2, !size_append. lia. }
  pose proof (size_nonneg P). pose proof (size_nonneg tail).
  pose proof (length_le_bulks args).
  destruct (pretty_nat_spec (length args)) as (_ & _ & _ & _ & HfreeP & _).
  fold P in HfreeP.
  assert (find raw CRLF 1 = Some (1 + size P)) as Hfind.
  { rewrite Hraw1. by apply (find_crlf "*" P). }
  assert (substr raw 1 (size P) = P) as Hsub.
  { rewrite Hraw1. apply (substr_append "*" P). }
  assert (Stoi.stoi P = Returns (Z.of_nat (length args))) as Hstoi.
  { subst P. apply stoi_pretty. lia. }
  unfold decodeCommand.
  assert (String.eqb raw EmptyString = false) as -> by (by rewrite Hraw0).
  assert (at_ raw 0 = Resp.star) as -> by (by rewrite Hraw0).
  change (eqb_char Resp.star Resp.star) with true. cbn [negb orb].
  change (0 + 1) with 1. rewrite Hfind.
  replace (1 + size P - 1) with (size P) by lia.
  rewrite Hsub, Hstoi, bind_returns, Nat2Z.id.
  replace (1 + size P + 2) with (size pre) by lia.
  rewrite Hraw2. apply (decode_args_frame args pre tail []).
  rewrite <- Hraw2. by subst raw.
Qed.

End DecodeFacts.

(** ** The server *)

Module ServerExtras.
Import Str Resp Engine Scenario LogFacts LruFacts ScenarioFacts DecodeFacts.

(** X10.  A request that is framed as RESP-2 has it (a count, then for
    each argument its length and its bytes) is decoded to its arguments,
    whatever bytes follow the frame in the buffer, and the reply is the
    dispatcher's for these arguments ([-ERR Invalid Command] for a frame
    of no arguments); the buffer must not be longer than an [int] counts,
    which the 1024 bytes of one read are not. *)
Theorem well_formed_frame_is_decoded (N : nat) (args : list string)
    (tail : string) (db : BlinkDB) :
  size (request_of args +:+ tail) <= Stoi.INT_MAX ->
  decodeCommand (request_of args +:+ tail) = Returns args
  /\ Server.handleClientRead N (request_of args +:+ tail) db
     = Returns (match args with
                | [] => (encodeError "Invalid Command", db)
                | _ => Server.handleCommand N args db
                end).
Proof.
  intros Hsz. pose proof (decode_request args tail Hsz) as Hdec.
  split; [done|]. unfold Server.handleClientRead. rewrite Hdec.
  rewrite bind_returns. by destruct args.
Qed.

Lemma well_formed_frame_is_decoded_witness :
  size (request_of ["SET"; "k"; "v"] +:+ request_of ["GET"; "k"])
    <= Stoi.INT_MAX
  /\ decodeCommand (request_of ["SET"; "k"; "v"] +:+ request_of ["GET"; "k"])
     = Returns ["SET"; "k"; "v"]
  /\ Server.handleClientRead 3
       (request_of ["SET"; "k"; "v"] +:+ request_of ["GET"; "k"]) (new None)
     = Returns (Server.handleCommand 3 ["SET"; "k"; "v"] (new None)).
Proof.
  assert (size (request_of ["SET"; "k"; "v"] +:+ request_of ["GET"; "k"])
          <= Stoi.INT_MAX) as Hsz by (vm_compute; discriminate).
  split; [exact Hsz|].
  exact (well_formed_frame_is_decoded 3 ["SET"; "k"; "v"]
           (request_of ["GET"; "k"]) (new None) Hsz).
Defined.





Lemma toupper_idem (c : ascii) :
  Server.toupper (Server.toupper c) = Server.toupper c.
Proof. by destruct c as [[] [] [] [] [] [] [] []]. Qed.

Lemma upper_idem (s : string) : Server.upper (Server.upper s) = Server.upper s.
Proof.
  induction s as [|c s IH]; [done|].
  cbn [Server.upper]. by rewrite toupper_idem, IH.
Qed.

(** X12.  The dispatcher looks at the verb in upper case only: a command
    and the same command with its verb in upper case get the same reply
    and leave the same engine; the key and the value are passed on as
    they are. *)
Theorem verb_case_is_ignored (N : nat) (c : string) (args : list string)
    (db : BlinkDB) :
  Server.handleCommand N (c :: args) db
  = Server.handleCommand N (Server.upper c :: args) db.
Proof.
  unfold Server.handleCommand. by rewrite upper_idem.
Qed.

Lemma handle_set (N : nat) (s key value : string) (db : BlinkDB) :
  Server.upper s = "SET" ->
  Server.handleCommand N [s; key; value] db
  = (encodeSimpleString "OK", set N key value db).
Proof. intros H. unfold Server.handleCommand. by rewrite H. Qed.

Lemma handle_get (N : nat) (g key : string) (db : BlinkDB) :
  Server.upper g = "GET" ->
  Server.handleCommand N [g; key] db
  = (if String.eqb (get N key db).1 "NULL" then encodeBulkString EmptyString
     else encodeBulkString (get N key db).1,
     (get N key db).2).
Proof.
  intros H. unfold Server.handleCommand. rewrite H. cbn.
  unfold Server.processGet, Server.arg. cbn [nth].
  by destruct (get N key db).
Qed.

Lemma handle_del (N : nat) (d key : string) (db : BlinkDB) :
  Server.upper d = "DEL" ->
  Server.handleCommand N [d; key] db
  = (encodeInteger (if (del key db).1 then 1 else 0), (del key db).2).
Proof.
  intros H. unfold Server.handleCommand. rewrite H. cbn.
  unfold Server.processDel, Server.arg. cbn [nth].
  by destruct (del key db).
Qed.

Lemma buffer_fits (raw_input : string) :
  size raw_input <= Server.BUFFER_SIZE -> size raw_input <= Stoi.INT_MAX.
Proof.
  intros H. etransitivity; [exact H|]. by vm_compute.
Qed.

Lemma frame_reply (N : nat) (c : string) (args : list string)
    (tail : string) (db : BlinkDB) :
  size (request_of (c :: args) +:+ tail) <= Stoi.INT_MAX ->
  Server.handleClientRead N (request_of (c :: args) +:+ tail) db
  = Returns (Server.handleCommand N (c :: args) db).
Proof.
  intros Hsz. unfold Server.handleClientRead.
  by rewrite (decode_request (c :: args) tail Hsz).
Qed.

(** X13.  When one [read] returns a buffer, of at most the 1024 bytes
    that [handleClientRead] reads at a time, that starts with a whole
    well-formed frame whose verb, in upper case, is not [SET] with two
    arguments, [GET] with one or [DEL] with one, the request never reaches
    the engine: the reply is the empty array for [CONFIG] (with any
    arguments) and [-ERR Unknown command] for everything else, a known
    verb with the wrong number of arguments included.  (A frame that the
    read cuts short is another buffer, and outside this statement.) *)
Theorem other_frames_leave_the_engine (N : nat) (c : string)
    (args : list string) (tail : string) (db : BlinkDB) :
  size (request_of (c :: args) +:+ tail) <= Server.BUFFER_SIZE ->
  ~ (Server.upper c = "SET" /\ length args = 2%nat) ->
  ~ (Server.upper c = "GET" /\ length args = 1%nat) ->
  ~ (Server.upper c = "DEL" /\ length args = 1%nat) ->
  Server.handleClientRead N (request_of (c :: args) +:+ tail) db
  = Returns (if String.eqb (Server.upper c) "CONFIG" then "*0" +:+ CRLF
             else encodeError "Unknown command",
             db).
Proof.
  intros Hsz Hset Hget Hdel.
  rewrite (frame_reply N c args tail db (buffer_fits _ Hsz)).
  f_equal. unfold Server.handleCommand. cbn [length].
  destruct (String.eqb_spec (Server.upper c) "SET") as [Hs|_];
    destruct (Nat.eqb_spec (S (length args)) 3) as [H3|_]; cbn [andb];
    try (exfalso; apply Hset; split; [done | lia]);
    destruct (String.eqb_spec (Server.upper c) "GET") as [Hg|_];
    destruct (Nat.eqb_spec (S (length args)) 2) as [H2|_]; cbn [andb];
    try (exfalso; apply Hget; split; [done | lia]);
    destruct (String.eqb_spec (Server.upper c) "DEL") as [Hd|_];
    cbn [andb];
    try (exfalso; apply Hdel; split; [done | lia]);
    by destruct (String.eqb (Server.upper c) "CONFIG").
Qed.

Lemma other_frames_leave_the_engine_witness :
  size (request_of ["get"; "a"; "b"] +:+ EmptyString) <= Server.BUFFER_SIZE
  /\ Server.handleClientRead 3 (request_of ["get"; "a"; "b"] +:+ EmptyString)
       (new None)
     = Returns (encodeError "Unknown command", new None).
Proof.
  assert (size (request_of ["get"; "a"; "b"] +:+ EmptyString)
          <= Server.BUFFER_SIZE) as Hsz by (vm_compute; discriminate).
  split; [exact Hsz|].
  apply (other_frames_leave_the_engine 3 "get" ["a"; "b"] EmptyString
           (new None) Hsz).
  - intros [H _]. vm_compute in H. discriminate H.
  - intros [_ H]. discriminate H.
  - intros [H _]. vm_compute in H. discriminate H.
Defined.

Lemma handleCommand_step (N : nat)
    (iteration : gmap string string -> list (string * string))
    (command : list string) (db : BlinkDB) :
  (Server.handleCommand N command db).2 = db
  \/ exists r, (Server.handleCommand N command db).2 = step N iteration db r.
Proof.
  unfold Server.handleCommand. destruct command as [|c args]; [by left|].
  repeat match goal with
         | |- context [if ?b then _ else _] => destruct b
         end; try (by left); right.
  - by exists (SET (Server.arg (c :: args) 1) (Server.arg (c :: args) 2)).
  - exists (GET (Server.arg (c :: args) 1)). unfold Server.processGet.
    cbn [step]. by destruct (get N _ db).
  - exists (DEL (Server.arg (c :: args) 1)). unfold Server.processDel.
    cbn [step]. by destruct (del _ db).
Qed.

Lemma serve_run (N : nat)
    (iteration : gmap string string -> list (string * string))
    (inputs : list string) :
  forall (db : BlinkDB) (replies : list string) (db' : BlinkDB),
    serve N inputs db = Returns (replies, db') ->
    length replies = length inputs
    /\ exists rs, db' = run N iteration rs db.
Proof.
  induction inputs as [|raw inputs IH]; intros db replies db' H.
  { injection H as <- <-. split; [done|]. by exists []. }
  cbn [serve] in H.
  destruct (Server.handleClientRead N raw db) as [[reply db1]|e] eqn:Hread;
    [|done].
  rewrite bind_returns in H.
  destruct (serve N inputs db1) as [[replies1 db2]|e] eqn:Hserve; [|done].
  rewrite bind_returns in H. injection H as <- <-.
  destruct (IH db1 replies1 db2 Hserve) as (Hlen & rs & ->).
  split; [cbn [length]; by rewrite Hlen|].
  assert (db1 = db \/ exists r, db1 = step N iteration db r) as Hstep.
  { unfold Server.handleClientRead in Hread.
    destruct (decodeCommand raw) as [command|e]; [|done].
    rewrite bind_returns in Hread.
    pose proof (handleCommand_step N iteration command db) as Hc.
    destruct command as [|c args]; [injection Hread as _ <-; by left|].
    assert (Server.handleCommand N (c :: args) db = (reply, db1)) as Heq
      by congruence.
    by rewrite Heq in Hc. }
  destruct Hstep as [-> | (r & ->)]; [by exists rs | by exists (r :: rs)].
Qed.

(** X14.  Whatever the clients send, from a server whose engine was
    constructed without a persistence file or from a loadable one: if the
    reads of a connection are all answered (no exception leaves the
    decoder), there is one reply for each read, and the engine afterwards
    still holds no more than the capacity, with every resident key in the
    LRU list exactly once and nothing else there. *)
Theorem served_engine_keeps_capacity (N : nat)
    (iteration : gmap string string -> list (string * string))
    (HN : (0 < N)%nat) (f : option string) (rs : list request)
    (inputs replies : list string) (db' : BlinkDB) :
  loadable N f ->
  serve N inputs (run N iteration rs (new f)) = Returns (replies, db') ->
  length replies = length inputs
  /\ (base.size (store db') <= N)%nat
  /\ NoDup (lru_keys db')
  /\ (forall k, k ∈ lru_keys db' <-> is_Some (store db' !! k)).
Proof.
  intros Hf Hserve.
  destruct (serve_run N iteration inputs _ _ _ Hserve) as (Hlen & rs' & ->).
  assert (wf N (run N iteration rs' (run N iteration rs (new f)))) as Hwf
    by (by apply wf_run, wf_from_new).
  destruct (EngineExtras.wf_size N _ Hwf) as [Hsize Hkeys].
  destruct Hwf as [(Hnd & _ & Hcap) _].
  split_and!; [done | lia | done | done].
Qed.

Lemma served_engine_keeps_capacity_witness :
  (0 < 1)%nat
  /\ loadable 1 None
  /\ (exists replies db',
        serve 1 [request_of ["SET"; "a"; "1"]; "PING" +:+ CRLF;
                 request_of ["SET"; "b"; "2"]] (new None)
        = Returns (replies, db')
        /\ length replies = 3%nat
        /\ (base.size (store db') <= 1)%nat).
Proof.
  split; [exact Nat.lt_0_1|]. split; [exact I|].
  destruct (serve 1 [request_of ["SET"; "a"; "1"]; "PING" +:+ CRLF;
                     request_of ["SET"; "b"; "2"]] (new None))
    as [[replies db']|e] eqn:Hserve; [|vm_compute in Hserve; discriminate].
  exists replies, db'. split; [done|].
  pose proof (served_engine_keeps_capacity 1 map_to_list Nat.lt_0_1 None []
                _ replies db' I Hserve) as (Hlen & Hsize & _).
  split; [exact Hlen | exact Hsize].
Defined.

Lemma read_frame (N : nat) (c : string) (args : list string)
    (db : BlinkDB) :
  size (request_of (c :: args)) <= Stoi.INT_MAX ->
  Server.handleClientRead N (request_of (c :: args)) db
  = Returns (Server.handleCommand N (c :: args) db).
Proof.
  intros Hsz. rewrite <- (append_nil_r (request_of (c :: args))) at 1.
  apply frame_reply. by rewrite append_nil_r.
Qed.

(** X15.  In a server whose engine was constructed without a persistence
    file or from a loadable one, and then driven by any requests and
    flush rounds: when one [read] returns exactly a [SET key value] frame
    and the next one exactly a [GET key] frame, each a whole frame of at
    most the 1024 bytes that [handleClientRead] reads at a time, the
    first is answered [+OK] and the second with the value as a bulk
    string, except that the empty value and the value [NULL] come back as
    the null bulk string [$-1]; the verbs may be in any case.  (A frame
    longer than the buffer reaches the decoder cut short, and is outside
    this statement.) *)
Theorem set_then_get_on_the_wire (N : nat)
    (iteration : gmap string string -> list (string * string))
    (HN : (0 < N)%nat) (f : option string) (rs : list request)
    (s g key value : string) :
  loadable N f ->
  Server.upper s = "SET" ->
  Server.upper g = "GET" ->
  size (request_of [s; key; value]) <= Server.BUFFER_SIZE ->
  size (request_of [g; key]) <= Server.BUFFER_SIZE ->
  let db := run N iteration rs (new f) in
  serve N [request_of [s; key; value]; request_of [g; key]] db
  = Returns (["+OK" +:+ CRLF;
              if (String.eqb value EmptyString || String.eqb value "NULL")%bool
              then "$-1" +:+ CRLF
              else bulk value],
             (get N key (set N key value db)).2).
Proof.
  intros Hf Hs Hg Hsz1 Hsz2 db.
  apply buffer_fits in Hsz1. apply buffer_fits in Hsz2.
  assert (wf N (set N key value db)) as Hwf
    by (by apply wf_set, wf_from_new).
  pose proof (get_resident N HN key value _ Hwf (set_store N key value db))
    as Hget.
  cbn [serve].
  rewrite (read_frame N s [key; value] db Hsz1), bind_returns.
  rewrite (handle_set N s key value db Hs).
  rewrite (read_frame N g [key] _ Hsz2), bind_returns.
  rewrite (handle_get N g key _ Hg), Hget. cbn [fst snd].
  rewrite !bind_returns. do 3 f_equal.
  unfold encodeBulkString, bulk.
  destruct (String.eqb_spec value "NULL") as [->|_]; [done|].
  by rewrite orb_false_r.
Qed.

Lemma set_then_get_on_the_wire_witness :
  (0 < 2)%nat
  /\ loadable 2 None
  /\ Server.upper "set" = "SET"
  /\ Server.upper "Get" = "GET"
  /\ size (request_of ["set"; "a"; "xyz"]) <= Server.BUFFER_SIZE
  /\ size (request_of ["Get"; "a"]) <= Server.BUFFER_SIZE
  /\ (fst <$> serve 2 [request_of ["set"; "a"; "xyz"]; request_of ["Get"; "a"]]
                (new None))
     = Returns ["+OK" +:+ CRLF; bulk "xyz"].
Proof.
  assert (size (request_of ["set"; "a"; "xyz"]) <= Server.BUFFER_SIZE) as H1
    by (vm_compute; discriminate).
  assert (size (request_of ["Get"; "a"]) <= Server.BUFFER_SIZE) as H2
    by (vm_compute; discriminate).
  split; [exact Nat.lt_0_2|]. split; [exact I|].
  split; [reflexivity|]. split; [reflexivity|].
  split; [exact H1|]. split; [exact H2|].
  pose proof (set_then_get_on_the_wire 2 map_to_list Nat.lt_0_2 None []
                "set" "Get" "a" "xyz" I eq_refl eq_refl H1 H2) as H.
  cbv zeta in H. cbn [run fold_left] in H. rewrite H. reflexivity.
Defined.

(** X16.  In a server whose engine was constructed without a persistence
    file or from a loadable one, and then driven by any requests and
    flush rounds: when one [read] returns exactly a [DEL key] frame, a
    whole frame of at most the 1024 bytes that [handleClientRead] reads at
    a time, it is answered [:1] when the key is resident and [:0] when it
    is not, and the same frame read again is answered [:0] and changes
    nothing more.  (A frame longer than the buffer reaches the decoder
    cut short, and is outside this statement.) *)
Theorem del_twice_on_the_wire (N : nat)
    (iteration : gmap string string -> list (string * string))
    (HN : (0 < N)%nat) (f : option string) (rs : list request)
    (d key : string) :
  loadable N f ->
  Server.upper d = "DEL" ->
  size (request_of [d; key]) <= Server.BUFFER_SIZE ->
  let db := run N iteration rs (new f) in
  serve N [request_of [d; key]; request_of [d; key]] db
  = Returns ([encodeInteger
                (if bool_decide (is_Some (store db !! key)) then 1 else 0);
              encodeInteger 0],
             (del key db).2).
Proof.
  intros Hf Hd Hsz db. apply buffer_fits in Hsz.
  assert (wf N db) as Hwf by (by apply wf_from_new).
  destruct (EngineExtras.wf_del_fields N key db Hwf)
    as (Hres & Hstore & _ & _ & _ & _ & _).
  assert (del key (del key db).2 = (false, (del key db).2)) as Hagain.
  { unfold del at 1. by rewrite Hstore, lookup_delete_eq. }
  cbn [serve].
  rewrite (read_frame N d [key] db Hsz), bind_returns.
  rewrite (handle_del N d key db Hd).
  rewrite (read_frame N d [key] _ Hsz), bind_returns.
  rewrite (handle_del N d key _ Hd), Hagain. cbn [fst snd].
  rewrite !bind_returns. do 4 f_equal.
  destruct (del key db).1 eqn:Hb.
  - by rewrite bool_decide_eq_true_2 by (by apply Hres).
  - rewrite bool_decide_eq_false_2; [done|].
    intros H. apply Hres in H. congruence.
Qed.

Lemma del_twice_on_the_wire_witness :
  (0 < 2)%nat
  /\ loadable 2 None
  /\ Server.upper "del" = "DEL"
  /\ size (request_of ["del"; "a"]) <= Server.BUFFER_SIZE
  /\ (fst <$> serve 2 [request_of ["del"; "a"]; request_of ["del"; "a"]]
                (run 2 map_to_list [SET "a" "1"] (new None)))
     = Returns [encodeInteger 1; encodeInteger 0].
Proof.
  assert (size (request_of ["del"; "a"]) <= Server.BUFFER_SIZE) as H1
    by (vm_compute; discriminate).
  split; [exact Nat.lt_0_2|]. split; [exact I|]. split; [reflexivity|].
  split; [exact H1|].
  pose proof (del_twice_on_the_wire 2 map_to_list Nat.lt_0_2 None
                [SET "a" "1"] "del" "a" I eq_refl H1) as H.
  cbv zeta in H. rewrite H. reflexivity.
Defined.

End ServerExtras.

(** ** Removing the persistence file *)

Module ClearExtras.
Import Engine Lifecycle LruFacts.
Local Close Scope Z_scope.

(** X17.  [clearPersistenceFile] takes the evicted keys away for good:
    every key that is not resident is then answered absent, marked or
    not, and the engine is not changed by the request; an engine built
    from what is on the disk is empty; and when nothing was modified since
    the last flush, the destructor writes nothing, so that the engine a
    restart builds is empty, whatever the one that was shut down held. *)
Theorem cleared_file_loses_the_data (N : nat)
    (iteration : gmap string string -> list (string * string))
    (o : io) (db : BlinkDB) (key : string) :
  let db' := clearPersistenceFile db in
  (store db' !! key = None -> get N key db' = ("NULL", db'))
  /\ store (new (file db')) = ∅
  /\ (dirty db = false -> store (new (file (destructor iteration o db'))) = ∅).
Proof.
  intros db'. split_and!.
  - intros Hst. by apply get_miss.
  - done.
  - intros Hclean. unfold destructor. cbn. by rewrite Hclean.
Qed.

Lemma cleared_file_loses_the_data_witness :
  store (run 1 map_to_list [SET "a" "1"; TICK IoOk; SET "b" "2"; TICK IoOk]
           (new None)) !! "a" = None
  /\ dirty (run 1 map_to_list
              [SET "a" "1"; TICK IoOk; SET "b" "2"; TICK IoOk] (new None))
     = false
  /\ (let db :=
        run 1 map_to_list [SET "a" "1"; TICK IoOk; SET "b" "2"; TICK IoOk]
          (new None) in
      store db !! "b" = Some "2"
      /\ get 1 "a" (clearPersistenceFile db)
         = ("NULL", clearPersistenceFile db)
      /\ store (new (file (destructor map_to_list IoOk
                             (clearPersistenceFile db)))) = ∅).
Proof.
  split; [by vm_compute|]. split; [by vm_compute|]. intros db.
  destruct (cleared_file_loses_the_data 1 map_to_list IoOk db "a")
    as (Hget & _ & Hrestart).
  split_and!; [by vm_compute | |].
  - apply Hget. by vm_compute.
  - apply Hrestart. by vm_compute.
Defined.

End ClearExtras.

(** ** The load balancer *)

Module BalancerExtras.
Import Balancer.
Local Close Scope Z_scope.

Lemma connect_after (i : nat) :
  connectToBackend (after i) = (pick i, after (S i)).
Proof.
  unfold connectToBackend, after, pick. rewrite Nat.even_succ.
  rewrite <- Nat.negb_even. by destruct (Nat.even i).
Qed.

Lemma connect_times_after (n : nat) :
  forall i, connect_times n (after i) = (map pick (seq i n), after (i + n)).
Proof.
  induction n as [|n IH]; intros i.
  { by rewrite Nat.add_0_r. }
  cbn [connect_times seq map]. rewrite connect_after, IH.
  by rewrite Nat.add_succ_r.
Qed.

(** X18.  Calls of [connectToBackend] on one balancer object alternate
    between the two backends, from whichever the first call picks
    (server 1 when [current_server] is 0, server 2 for any other value);
    after a call [current_server] is 1 or 0, by turns, whatever it was
    before the first one. *)
Theorem connect_alternates (n : nat) (lb : LoadBalancer) :
  let start := if (current_server lb =? 0)%Z then 0 else 1 in
  (connect_times n lb).1 = map pick (seq start n)
  /\ (connect_times (S n) lb).2 = after (start + S n)
  /\ connect_times n new = (map pick (seq 0 n), after n).
Proof.
  intros start.
  assert (forall m, connect_times (S m) lb
                    = (map pick (seq start (S m)), after (start + S m)))
    as H.
  { intros m. cbn [connect_times]. unfold connectToBackend, start.
    destruct (current_server lb =? 0)%Z.
    - change (mkLoadBalancer 1) with (after 1).
      rewrite (connect_times_after m 1). by rewrite Nat.add_succ_r.
    - change (mkLoadBalancer 0) with (after 2).
      rewrite (connect_times_after m 2). by rewrite Nat.add_succ_r. }
  split_and!.
  - destruct n as [|n]; [done|]. by rewrite H.
  - by rewrite H.
  - apply (connect_times_after n 0).
Qed.

(** X19.  As [start] runs it, with one forked child for each accepted
    connection, the choice is made in the child and the parent's
    [current_server] is never written: every connection is sent to the
    backend that the first one was sent to, which is server 1 for the
    balancer that the constructor builds, and server 2 is never used. *)
Theorem forked_children_pick_the_same_backend (n : nat)
    (lb : LoadBalancer) :
  accept_times n lb = (repeat (connectToBackend lb).1 n, lb)
  /\ accept_times n new = (repeat Server1 n, new)
  /\ (Server2 ∉ (accept_times n new).1).
Proof.
  assert (forall lb', accept_times n lb'
                      = (repeat (connectToBackend lb').1 n, lb')) as H.
  { intros lb'. induction n as [|n IH]; [done|].
    cbn [accept_times repeat]. unfold accept_one at 1. by rewrite IH. }
  split_and!; [apply H | apply H |].
  rewrite (H new). cbn [fst]. intros Hin.
  apply list_elem_of_In, repeat_spec in Hin. discriminate Hin.
Qed.

End BalancerExtras.
